(** * babel.support: translation catalogs and lazy proxies

    A shallow embedding of [babel/support.py].

    - [Module Catalogs] embeds [NullTranslations] and [Translations]:
      the objects live in a store indexed by addresses, because the
      source links catalogs by reference ([_fallback], [_domains]) and
      [Translations.add] mutates the object it is handed.
    - [Module Lazy] embeds [LazyProxy]: the [value] property and
      [__getattr__] as transitions on the proxy's slots, with the producer
      an arbitrary effectful function whose invocations are counted. *)

From Stdlib Require Import ZArith Lia Ascii String.
From stdpp Require Import gmap strings list fin_maps.

Local Open Scope string_scope.

(** ** Definitions *)

Module Catalogs.

(** Keys of [_catalog], typed [t.Union[str, tuple[str, int]]] in the
    source: a message id, or a message id paired with a plural index. *)
Inductive key : Type :=
  | KMsg (msgid : string)
  | KPlural (msgid : string) (index : Z).

#[global] Instance key_eq_dec : EqDecision key.
Proof. solve_decision. Defined.

#[global] Instance key_countable : Countable key.
Proof.
  refine (inj_countable'
    (fun k => match k with
              | KMsg s => inl s
              | KPlural s i => inr (s, i)
              end)
    (fun x => match x with
              | inl s => KMsg s
              | inr (s, i) => KPlural s i
              end) _).
  intros []; reflexivity.
Defined.

(** The two classes of the module.  [Translations] derives from
    [NullTranslations] and from [gettext.GNUTranslations]. *)
Inductive cls : Type :=
  | NullTranslations
  | Translations.

Definition isinstance_GNUTranslations (c : cls) : bool :=
  match c with Translations => true | NullTranslations => false end.

Definition isinstance_Translations (c : cls) : bool :=
  match c with Translations => true | NullTranslations => false end.

(** [DEFAULT_DOMAIN] is [None] on [NullTranslations] and ['messages'] on
    [Translations]. *)
Definition DEFAULT_DOMAIN (c : cls) : option string :=
  match c with
  | NullTranslations => None
  | Translations => Some "messages"
  end.

Abbreviation addr := nat (only parsing).

(** The instance attributes of a catalog object.  A Python [None] in
    [domain] or [_fallback] is Rocq's [None]. *)
Record translations : Type := mkTranslations {
  klass : cls;
  _catalog : gmap key string;
  plural : Z -> Z;
  _fallback : option addr;
  domain : option string;
  _domains : gmap (option string) addr;
  files : list string
}.

Abbreviation heap := (gmap nat translations) (only parsing).

Definition set_catalog (c : gmap key string) (o : translations) : translations :=
  mkTranslations (klass o) c (plural o) (_fallback o) (domain o) (_domains o) (files o).

Definition set_fallback (f : option addr) (o : translations) : translations :=
  mkTranslations (klass o) (_catalog o) (plural o) f (domain o) (_domains o) (files o).

Definition set_domains (d : gmap (option string) addr) (o : translations) : translations :=
  mkTranslations (klass o) (_catalog o) (plural o) (_fallback o) (domain o) d (files o).

Definition set_files (l : list string) (o : translations) : translations :=
  mkTranslations (klass o) (_catalog o) (plural o) (_fallback o) (domain o) (_domains o) l.

(** [lambda n: int(n != 1)], the selector installed by [__init__]. *)
Definition default_plural (n : Z) : Z := if bool_decide (n ≠ 1%Z) then 1%Z else 0%Z.

(** [NullTranslations.__init__] with [fp=None]. *)
Definition NullTranslations_init : translations :=
  mkTranslations NullTranslations ∅ default_plural None
                 (DEFAULT_DOMAIN NullTranslations) ∅ [].

(** Python's [fmt % args] for a format made of literal text and [%s]
    holes, all arguments being [str].  [None] is the [TypeError] raised
    when holes and arguments do not match in number. *)
Fixpoint percent (fmt : string) (args : list string) : option string :=
  match fmt with
  | "" => match args with [] => Some "" | _ :: _ => None end
  | String "%"%char (String "s"%char rest) =>
      match args with
      | a :: args' => String.append a <$> percent rest args'
      | [] => None
      end
  | String c rest => String c <$> percent rest args
  end.

(** [CONTEXT_ENCODING = '%s\x04%s'] *)
Definition CONTEXT_ENCODING : string := "%s" +:+ String "004"%char "%s".

(** The lookups return [option string]: [None] is "no result", that is
    the recursion through [_fallback] did not bottom out within [fuel]
    calls (Python's [RecursionError] on a cyclic chain), an address is not
    allocated, or [%] raised.  The test [if self._fallback] is a test
    against [None]: neither class defines [__bool__] or [__len__], so a
    catalog object is true. *)
Fixpoint pgettext (fuel : nat) (h : heap) (self : addr)
    (context message : string) : option string :=
  match fuel with
  | O => None
  | S fuel' =>
      o ← h !! self;
      ctxt_msg_id ← percent CONTEXT_ENCODING [context; message];
      match _catalog o !! KMsg ctxt_msg_id with
      | None =>
          match _fallback o with
          | Some fb => pgettext fuel' h fb context message
          | None => Some message
          end
      | Some tmsg => Some tmsg
      end
  end.

Fixpoint npgettext (fuel : nat) (h : heap) (self : addr)
    (context singular plural' : string) (num : Z) : option string :=
  match fuel with
  | O => None
  | S fuel' =>
      o ← h !! self;
      ctxt_msg_id ← percent CONTEXT_ENCODING [context; singular];
      match _catalog o !! KPlural ctxt_msg_id (plural o num) with
      | Some tmsg => Some tmsg
      | None =>
          match _fallback o with
          | Some fb => npgettext fuel' h fb context singular plural' num
          | None => if bool_decide (num = 1%Z) then Some singular else Some plural'
          end
      end
  end.

(** [self._domains.get(domain, self)] *)
Definition domains_get (o : translations) (domain' : option string) (self : addr) : addr :=
  default self (_domains o !! domain').

Definition dpgettext (fuel : nat) (h : heap) (self : addr)
    (domain' : option string) (context message : string) : option string :=
  o ← h !! self;
  pgettext fuel h (domains_get o domain' self) context message.

Definition dnpgettext (fuel : nat) (h : heap) (self : addr)
    (domain' : option string) (context singular plural' : string) (num : Z)
    : option string :=
  o ← h !! self;
  npgettext fuel h (domains_get o domain' self) context singular plural' num.

(** [gettext] is inherited from the standard library; [dgettext] only
    routes to it, so it is embedded over an arbitrary [gettext] method. *)
Definition dgettext (gettext : heap -> addr -> string -> option string)
    (h : heap) (self : addr) (domain' : option string) (message : string)
    : option string :=
  o ← h !! self;
  gettext h (domains_get o domain' self) message.

(** The standard library's [gettext]: [GNUTranslations.gettext] for a
    [Translations] object, [NullTranslations.gettext] otherwise. *)
Fixpoint gettext (fuel : nat) (h : heap) (self : addr) (message : string)
    : option string :=
  match fuel with
  | O => None
  | S fuel' =>
      o ← h !! self;
      let miss :=
        match _fallback o with
        | Some fb => gettext fuel' h fb message
        | None => Some message
        end in
      match klass o with
      | NullTranslations => miss
      | Translations =>
          match _catalog o !! KMsg message with
          | None => miss
          | Some tmsg => Some tmsg
          end
      end
  end.

(** The standard library's [NullTranslations.add_fallback], which both
    classes inherit: the new fallback goes to the end of the chain. *)
Fixpoint add_fallback (fuel : nat) (h : heap) (self fallback : addr) : option heap :=
  match fuel with
  | O => None
  | S fuel' =>
      o ← h !! self;
      match _fallback o with
      | Some fb => add_fallback fuel' h fb fallback
      | None => Some (<[self := set_fallback (Some fallback) o]> h)
      end
  end.

(** [Translations.merge]; the result is the new store and the returned
    object, [self].  The objects are read again before [files.extend], so
    that [self.merge(self)] is what Python does. *)
Definition merge (h : heap) (self translations' : addr) : option (heap * addr) :=
  s ← h !! self;
  t ← h !! translations';
  if isinstance_GNUTranslations (klass t) then
    let h1 := <[self := set_catalog (_catalog t ∪ _catalog s) s]> h in
    if isinstance_Translations (klass t) then
      s1 ← h1 !! self;
      t1 ← h1 !! translations';
      Some (<[self := set_files (files s1 ++ files t1) s1]> h1, self)
    else Some (h1, self)
  else Some (h, self).

(** [Translations.add].  Both classes set [domain] in [__init__], so
    [getattr(translations, 'domain', self.DEFAULT_DOMAIN)] is the
    attribute.  [self] is the receiver of [Translations.add], so
    [self.merge] is [Translations.merge].  The registered catalog
    [existing] is whatever object was added before: [existing.merge] is
    [Translations.merge] on a [Translations], and raises [AttributeError]
    on a [NullTranslations], which has no [merge]; an exception is "no
    result", [None]. *)
Definition add (fuel : nat) (h : heap) (self translations' : addr) (merge' : bool)
    : option (heap * addr) :=
  s ← h !! self;
  t ← h !! translations';
  let domain' := domain t in
  if merge' && bool_decide (domain' = domain s) then merge h self translations'
  else
    let existing := _domains s !! domain' in
    match merge', existing with
    | true, Some existing' =>
        e ← h !! existing';
        match klass e with
        | Translations =>
            r ← merge h existing' translations';
            Some (r.1, self)
        | NullTranslations => None
        end
    | _, _ =>
        h1 ← add_fallback fuel h translations' self;
        s1 ← h1 !! self;
        Some (<[self := set_domains (<[domain' := translations']> (_domains s1)) s1]> h1, self)
    end.

(** [fallbacks h a l]: following [_fallback] from [a] visits exactly the
    objects [l] and ends at one without fallback; the chain from [a] is
    finite, hence acyclic. *)
Inductive fallbacks (h : heap) : addr -> list addr -> Prop :=
  | fallbacks_last a o :
      h !! a = Some o -> _fallback o = None -> fallbacks h a [a]
  | fallbacks_next a o b l :
      h !! a = Some o -> _fallback o = Some b -> fallbacks h b l ->
      fallbacks h a (a :: l).

(** The shape [pgettext] and [npgettext] share: probe the catalog of
    [self], on a miss go on at the fallback, return [dflt] where there is
    none.  It is what the two are compared to when both are reasoned about
    at once. *)
Fixpoint resolve (probe : translations -> option string) (dflt : string)
    (fuel : nat) (h : heap) (self : addr) : option string :=
  match fuel with
  | O => None
  | S fuel' =>
      o ← h !! self;
      match probe o with
      | Some tmsg => Some tmsg
      | None =>
          match _fallback o with
          | Some fb => resolve probe dflt fuel' h fb
          | None => Some dflt
          end
      end
  end.

End Catalogs.

Module Lazy.

Section LazyProxy.

(** [W] is the state of the world the producer runs in, [V] the type of
    the Python objects other than [None] ([option V] is then a Python
    value, [None] being Python's), [Args] the bound positional and
    keyword arguments, [exn] the exceptions. *)
Context {W V Args exn : Type}.

(** [isinstance(error, AttributeError)], what [except AttributeError]
    tests. *)
Variable isinstance_AttributeError : exn -> bool.

(** [getattr] on a realized value. *)
Variable getattr : option V -> string -> W -> (option V + exn) * W.

(** The slots of a proxy; [_args] stands for [_args] and [_kwargs]. *)
Record LazyProxy : Type := mkLazyProxy {
  _func : Args -> W -> (option V + exn) * W;
  _args : Args;
  _value : option V;
  _is_cache_enabled : bool;
  _attribute_error : option exn
}.

(** [LazyProxy.__init__] *)
Definition __init__ (func : Args -> W -> (option V + exn) * W) (args : Args)
    (enable_cache : bool) : LazyProxy :=
  mkLazyProxy func args None enable_cache None.

(** A proxy in its world; [calls] counts the invocations of [_func]. *)
Record state : Type := mkState {
  proxy : LazyProxy;
  world : W;
  calls : nat
}.

Definition set_value (v : option V) (p : LazyProxy) : LazyProxy :=
  mkLazyProxy (_func p) (_args p) v (_is_cache_enabled p) (_attribute_error p).

Definition set_attribute_error (e : option exn) (p : LazyProxy) : LazyProxy :=
  mkLazyProxy (_func p) (_args p) (_value p) (_is_cache_enabled p) e.

(** [self._func( *self._args, **self._kwargs)] *)
Definition call_func (st : state) : (option V + exn) * state :=
  let p := proxy st in
  let r := _func p (_args p) (world st) in
  (r.1, mkState p r.2 (S (calls st))).

(** The [value] property: [inl v] is [return v], [inr e] is [raise e]. *)
Definition value (st : state) : (option V + exn) * state :=
  match _value (proxy st) with
  | None =>
      match call_func st with
      | (inr error, st1) =>
          if isinstance_AttributeError error then
            (inr error,
             mkState (set_attribute_error (Some error) (proxy st1))
                     (world st1) (calls st1))
          else (inr error, st1)
      | (inl value', st1) =>
          if negb (_is_cache_enabled (proxy st1)) then (inl value', st1)
          else
            let p2 := set_value value' (proxy st1) in
            (inl (_value p2), mkState p2 (world st1) (calls st1))
      end
  | Some v => (inl (Some v), st)
  end.

(** [LazyProxy.__getattr__] *)
Definition __getattr__ (st : state) (name : string) : (option V + exn) * state :=
  match _attribute_error (proxy st) with
  | Some error => (inr error, st)
  | None =>
      match value st with
      | (inl v, st1) =>
          let r := getattr v name (world st1) in
          (r.1, mkState (proxy st1) r.2 (calls st1))
      | (inr error, st1) => (inr error, st1)
      end
  end.

(** What a client does to a proxy: read [.value] (as every forwarding
    method does first) or look an attribute up. *)
Inductive op : Type :=
  | Value
  | Getattr (name : string).

Definition step (o : op) (st : state) : (option V + exn) * state :=
  match o with
  | Value => value st
  | Getattr name => __getattr__ st name
  end.

(** The outcomes of a sequence of operations, and the final state. *)
Fixpoint run (ops : list op) (st : state) : list (option V + exn) * state :=
  match ops with
  | [] => ([], st)
  | o :: ops' =>
      let r := step o st in
      let rs := run ops' r.2 in
      (r.1 :: rs.1, rs.2)
  end.

(** [n] accesses of [.value] in a row. *)
Definition accesses (n : nat) (st : state) : list (option V + exn) * state :=
  run (replicate n Value) st.

(** A proxy just created, before any access. *)
Definition fresh (func : Args -> W -> (option V + exn) * W) (args : Args)
    (enable_cache : bool) (w : W) : state :=
  mkState (__init__ func args enable_cache) w 0.

End LazyProxy.

End Lazy.

(** ** Concrete catalogs *)

Module Examples.
Import Catalogs.

(** [Translations.__init__] with [fp=None]: the domain is
    [domain or self.DEFAULT_DOMAIN]. *)
Definition Translations_init (domain' : option string) : translations :=
  mkTranslations Translations ∅ default_plural None
    (match domain' with
     | Some d => if bool_decide (d = "") then DEFAULT_DOMAIN Translations else Some d
     | None => DEFAULT_DOMAIN Translations
     end) ∅ [].

(** ["menu\x04File"] and ["menu\x04file"] *)
Definition menu_File : string := "menu" +:+ String "004"%char "File".
Definition menu_file : string := "menu" +:+ String "004"%char "file".

(** One empty catalog. *)
Definition h_null : heap := {[ 0 := NullTranslations_init ]}.

(** Three catalogs in a chain, only the last one knowing the messages. *)
Definition h_chain : heap :=
  {[ 0 := set_fallback (Some 1) (Translations_init (Some "app"));
     1 := set_fallback (Some 2) NullTranslations_init;
     2 := set_catalog {[ KMsg menu_File := "Datei";
                         KPlural menu_file 1 := "Dateien" ]}
            (Translations_init (Some "base")) ]}.

(** The catalogs [A] and [B] of the merge scenario, of one domain. *)
Definition cat_A : translations :=
  set_files ["a.mo"] (set_catalog {[ KMsg "hello" := "hi" ]} (Translations_init None)).

Definition cat_B : translations :=
  set_files ["b.mo"]
    (set_catalog {[ KMsg "hello" := "yo"; KMsg "bye" := "later" ]}
       (Translations_init None)).

Definition h_merge : heap := {[ 0 := cat_A; 1 := cat_B ]}.

(** [A] next to a [NullTranslations] that carries what [B] carries: the
    file name from [fp], and a mapping and the domain ['messages'] by
    assignment. *)
Definition cat_N : translations :=
  mkTranslations NullTranslations
    {[ KMsg "hello" := "yo"; KMsg "bye" := "later" ]}
    default_plural None (Some "messages") ∅ ["n.mo"].

Definition h_null_merge : heap := {[ 0 := cat_A; 1 := cat_N ]}.

(** A primary catalog and a catalog of another domain, not yet added. *)
Definition primary : translations :=
  set_catalog {[ KMsg menu_File := "from self" ]} (Translations_init None).

Definition h_domains : heap :=
  {[ 0 := primary; 1 := Translations_init (Some "extra") ]}.

(** The same, the incoming catalog having a fallback of its own. *)
Definition h_older : heap :=
  {[ 0 := primary;
     1 := set_fallback (Some 2) (Translations_init (Some "extra"));
     2 := set_catalog {[ KMsg menu_File := "from older" ]}
            (Translations_init (Some "old")) ]}.

End Examples.

(** ** Concrete proxies *)

Module LazyExamples.
Import Lazy.

Inductive py_exn : Type :=
  | AttributeError (msg : string)
  | ValueError (msg : string).

Definition is_AttributeError (e : py_exn) : bool :=
  match e with
  | AttributeError _ => true
  | ValueError _ => false
  end.

(** The producers run in a world that counts what has been produced;
    they take no argument and make numbers. *)
Abbreviation producer := (unit -> nat -> (option nat + py_exn) * nat) (only parsing).

(** Returns the count, another number at each call. *)
Definition ticket : producer := fun _ w => (inl (Some w), S w).

(** Returns [None]. *)
Definition nothing : producer := fun _ w => (inl None, S w).

(** Fails on a missing attribute the first time, then works. *)
Definition shy : producer :=
  fun _ w =>
    (match w with
     | 0 => inr (AttributeError "first")
     | _ => inl (Some w)
     end, S w).

(** Fails twice, on two different missing attributes, then works. *)
Definition flaky : producer :=
  fun _ w =>
    (match w with
     | 0 => inr (AttributeError "first")
     | 1 => inr (AttributeError "second")
     | _ => inl (Some w)
     end, S w).

(** Fails, but not on a missing attribute. *)
Definition broken : producer := fun _ w => (inr (ValueError "bad"), S w).

(** [getattr] on numbers: they have [real] and nothing else. *)
Definition getattr_int (v : option nat) (name : string) (w : nat)
    : (option nat + py_exn) * nat :=
  (if bool_decide (name = "real") then inl v else inr (AttributeError name), w).

End LazyExamples.

(** ** The other lookups of [NullTranslations] *)

Module CatalogsMore.
Import Catalogs.

(** [str(x)] for an [x] that is a [str]. *)
Definition str (x : string) : string := x.

(** [NullTranslations.upgettext] *)
Fixpoint upgettext (fuel : nat) (h : heap) (self : addr)
    (context message : string) : option string :=
  match fuel with
  | O => None
  | S fuel' =>
      o ← h !! self;
      ctxt_message_id ← percent CONTEXT_ENCODING [context; message];
      match _catalog o !! KMsg ctxt_message_id with
      | None =>
          match _fallback o with
          | Some fb => upgettext fuel' h fb context message
          | None => Some (str message)
          end
      | Some tmsg => Some tmsg
      end
  end.

(** [NullTranslations.unpgettext] *)
Fixpoint unpgettext (fuel : nat) (h : heap) (self : addr)
    (context singular plural' : string) (num : Z) : option string :=
  match fuel with
  | O => None
  | S fuel' =>
      o ← h !! self;
      ctxt_message_id ← percent CONTEXT_ENCODING [context; singular];
      match _catalog o !! KPlural ctxt_message_id (plural o num) with
      | Some tmsg => Some tmsg
      | None =>
          match _fallback o with
          | Some fb => unpgettext fuel' h fb context singular plural' num
          | None =>
              if bool_decide (num = 1%Z) then Some (str singular)
              else Some (str plural')
          end
      end
  end.

(** [NullTranslations.udpgettext], also bound to [dupgettext]. *)
Definition udpgettext (fuel : nat) (h : heap) (self : addr)
    (domain' : option string) (context message : string) : option string :=
  o ← h !! self;
  upgettext fuel h (domains_get o domain' self) context message.

(** [NullTranslations.udnpgettext], also bound to [dunpgettext]. *)
Definition udnpgettext (fuel : nat) (h : heap) (self : addr)
    (domain' : option string) (context singular plural' : string) (num : Z)
    : option string :=
  o ← h !! self;
  unpgettext fuel h (domains_get o domain' self) context singular plural' num.

(** [no_less o o']: [o'] is [o] but for its fallback and its files, with
    possibly more keys in its mapping and more registered domains. *)
Definition no_less (o o' : translations) : Prop :=
  klass o' = klass o ∧ domain o' = domain o ∧ plural o' = plural o ∧
  dom (_catalog o) ⊆ dom (_catalog o') ∧
  dom (_domains o) ⊆ dom (_domains o').

Section Deprecated.

(** The byte-string variants.  [bytes] is the type of Python's [bytes];
    [_output_charset] reads the attribute of that name, which this module
    never sets ([getattr(self, "_output_charset", None)]);
    [getpreferredencoding] is [locale.getpreferredencoding()];
    [encode encoding tmsg] is [tmsg.encode(encoding)], [None] when it
    raises. *)
Context {bytes : Type}.
Variable _output_charset : addr -> option string.
Variable getpreferredencoding : string.
Variable encode : string -> string -> option bytes.

(** [getattr(self, "_output_charset", None) or
    locale.getpreferredencoding()]: an empty charset is false. *)
Definition output_encoding (self : addr) : string :=
  match _output_charset self with
  | Some charset =>
      if bool_decide (charset = "") then getpreferredencoding else charset
  | None => getpreferredencoding
  end.

(** The variants return the [DeprecationWarning]s they emitted, in order,
    beside their result. *)

(** [NullTranslations.lpgettext] *)
Definition lpgettext (fuel : nat) (h : heap) (self : addr)
    (context message : string) : list string * option bytes :=
  (["lpgettext() is deprecated, use pgettext() instead"],
   tmsg ← pgettext fuel h self context message;
   encode (output_encoding self) tmsg).

(** [NullTranslations.lnpgettext]: [inr] is a [bytes] result, [inl] a
    [str] one. *)
Fixpoint lnpgettext (fuel : nat) (h : heap) (self : addr)
    (context singular plural' : string) (num : Z)
    : list string * option (string + bytes) :=
  match fuel with
  | O => ([], None)
  | S fuel' =>
      let warning := "lnpgettext() is deprecated, use npgettext() instead" in
      match h !! self, percent CONTEXT_ENCODING [context; singular] with
      | Some o, Some ctxt_msg_id =>
          match _catalog o !! KPlural ctxt_msg_id (plural o num) with
          | Some tmsg => ([warning], inr <$> encode (output_encoding self) tmsg)
          | None =>
              match _fallback o with
              | Some fb =>
                  let r := lnpgettext fuel' h fb context singular plural' num in
                  (warning :: r.1, r.2)
              | None =>
                  ([warning],
                   Some (inl (if bool_decide (num = 1%Z) then singular else plural')))
              end
          end
      | _, _ => ([warning], None)
      end
  end.

(** [NullTranslations.ldpgettext] *)
Definition ldpgettext (fuel : nat) (h : heap) (self : addr)
    (domain' : option string) (context message : string)
    : list string * option bytes :=
  match h !! self with
  | Some o => lpgettext fuel h (domains_get o domain' self) context message
  | None => ([], None)
  end.

(** [NullTranslations.ldnpgettext] *)
Definition ldnpgettext (fuel : nat) (h : heap) (self : addr)
    (domain' : option string) (context singular plural' : string) (num : Z)
    : list string * option (string + bytes) :=
  match h !! self with
  | Some o =>
      lnpgettext fuel h (domains_get o domain' self) context singular plural' num
  | None => ([], None)
  end.

End Deprecated.

End CatalogsMore.

(** ** The other methods of [LazyProxy] *)

Module LazyMore.
Import Lazy.

Section Forwarding.

Context {W V Args exn : Type}.
Variable isinstance_AttributeError : exn -> bool.
Variable getattr : option V -> string -> W -> (option V + exn) * W.

Abbreviation state := (@state W V Args exn).
Abbreviation LazyProxy := (@LazyProxy W V Args exn).

(** The methods that forward an operation to the realized value,
    [__contains__], [__bool__], [__dir__], [__iter__], [__len__],
    [__str__], the arithmetic and comparison operators, [__call__],
    [__delitem__], [__getitem__] and [__setitem__]: each evaluates
    [self.value] and applies the operation [k] to it.  The operation runs
    in the world and returns or raises. *)
Definition forward (k : option V -> W -> (option V + exn) * W) (st : state)
    : (option V + exn) * state :=
  match value isinstance_AttributeError st with
  | (inl v, st1) =>
      let r := k v (world st1) in
      (r.1, mkState (proxy st1) r.2 (calls st1))
  | (inr error, st1) => (inr error, st1)
  end.

(** [LazyProxy.__setattr__] and [LazyProxy.__delattr__], over Python's
    [setattr] and [delattr] on a value. *)
Definition __setattr__
    (setattr : option V -> string -> option V -> W -> (option V + exn) * W)
    (name : string) (value' : option V) (st : state) : (option V + exn) * state :=
  forward (fun v => setattr v name value') st.

Definition __delattr__
    (delattr : option V -> string -> W -> (option V + exn) * W)
    (name : string) (st : state) : (option V + exn) * state :=
  forward (fun v => delattr v name) st.

(** [LazyProxy.__copy__] *)
Definition __copy__ (p : LazyProxy) : LazyProxy :=
  __init__ (_func p) (_args p) (_is_cache_enabled p).

(** [LazyProxy.__deepcopy__], over [deepcopy] on the producer and on the
    arguments; the cache flag is a [bool], its own deep copy. *)
Definition __deepcopy__
    (deepcopy_func : (Args -> W -> (option V + exn) * W) ->
                     Args -> W -> (option V + exn) * W)
    (deepcopy_args : Args -> Args) (p : LazyProxy) : LazyProxy :=
  __init__ (deepcopy_func (_func p)) (deepcopy_args (_args p))
           (_is_cache_enabled p).

(** Anything a client does to a proxy. *)
Inductive action : Type :=
  | Access
  | Lookup (name : string)
  | Forward (k : option V -> W -> (option V + exn) * W).

Definition act (a : action) (st : state) : (option V + exn) * state :=
  match a with
  | Access => value isinstance_AttributeError st
  | Lookup name => __getattr__ isinstance_AttributeError getattr st name
  | Forward k => forward k st
  end.

Fixpoint perform (actions : list action) (st : state)
    : list (option V + exn) * state :=
  match actions with
  | [] => ([], st)
  | a :: actions' =>
      let r := act a st in
      let rs := perform actions' r.2 in
      (r.1 :: rs.1, rs.2)
  end.

End Forwarding.

End LazyMore.

(** ** More concrete catalogs and proxies *)

Module MoreExamples.
Import Catalogs Examples.

(** A [NullTranslations] whose [domain] attribute was set to
    ['messages']. *)
Definition null_messages : translations :=
  mkTranslations NullTranslations ∅ default_plural None (Some "messages") ∅ [].

Definition h_nulls : heap := {[ 0 := cat_A; 1 := null_messages ]}.

(** A primary catalog with a catalog registered for ['extra'], and another
    catalog of that domain coming in. *)
Definition h_registered : heap :=
  {[ 0 := set_domains {[ Some "extra" := 2 ]} primary;
     1 := set_files ["new.mo"]
            (set_catalog {[ KMsg menu_File := "new" ]}
               (Translations_init (Some "extra")));
     2 := set_fallback (Some 0)
            (set_files ["old.mo"]
               (set_catalog {[ KMsg menu_File := "old"; KMsg "x" := "y" ]}
                  (Translations_init (Some "extra")))) ]}.

(** A primary catalog to which a [NullTranslations], as [load] returns
    when it finds no file, was added before, and another one coming in:
    both have the domain [None]. *)
Definition h_unmergeable : heap :=
  {[ 0 := set_domains {[ None := 2 ]} primary;
     1 := NullTranslations_init;
     2 := set_fallback (Some 0) NullTranslations_init ]}.

(** A primary catalog and a catalog of another domain that translates the
    same message. *)
Definition h_two : heap :=
  {[ 0 := primary;
     1 := set_catalog {[ KMsg menu_File := "from extra";
                         KPlural menu_file 1 := "extras" ]}
            (Translations_init (Some "extra")) ]}.

(** A catalog with both forms of one message. *)
Definition h_plural : heap :=
  {[ 0 := set_catalog {[ KPlural menu_file 0 := "Datei";
                         KPlural menu_file 1 := "Dateien" ]}
            (Translations_init None) ]}.

(** Output charsets: the catalog at 2 has one, the others have none. *)
Definition charsets (a : addr) : option string :=
  match a with
  | 2 => Some "latin-1"
  | _ => None
  end.

(** An encoder that tags the text with the name of the encoding. *)
Definition tag_encode (encoding text : string) : option string :=
  Some (encoding +:+ ":" +:+ text).

(** An operation on numbers: the successor. *)
Definition successor (v : option nat) (w : nat)
    : (option nat + LazyExamples.py_exn) * nat :=
  (inl (S <$> v), w).

End MoreExamples.

(** ** Context-qualified lookups *)

Module CatalogsFacts.
Import Catalogs.

Lemma append_empty_r (s : string) : s +:+ "" = s.
Proof.
  induction s as [|a s IH]; [reflexivity|].
  change (String a (s +:+ "") = String a s). by rewrite IH.
Qed.

(** The format [CONTEXT_ENCODING] applied to a context and a message id. *)
Lemma percent_CONTEXT_ENCODING (context message : string) :
  percent CONTEXT_ENCODING [context; message]
  = Some (context +:+ String "004"%char message).
Proof. simpl. by rewrite append_empty_r. Qed.

(** One unfolding of [pgettext], with the key spelled out. *)
Lemma pgettext_unfold fuel (h : heap) self context message :
  pgettext (S fuel) h self context message =
  o ← h !! self;
  match _catalog o !! KMsg (context +:+ String "004"%char message) with
  | Some tmsg => Some tmsg
  | None =>
      match _fallback o with
      | Some fb => pgettext fuel h fb context message
      | None => Some message
      end
  end.
Proof.
  cbn [pgettext]. destruct (h !! self) as [o|]; [|reflexivity].
  cbn [mbind option_bind]. rewrite percent_CONTEXT_ENCODING.
  cbn [mbind option_bind]. by destruct (_catalog o !! _).
Qed.

Lemma npgettext_unfold fuel (h : heap) self context singular plural' num :
  npgettext (S fuel) h self context singular plural' num =
  o ← h !! self;
  match _catalog o !! KPlural (context +:+ String "004"%char singular) (plural o num) with
  | Some tmsg => Some tmsg
  | None =>
      match _fallback o with
      | Some fb => npgettext fuel h fb context singular plural' num
      | None => Some (if bool_decide (num = 1%Z) then singular else plural')
      end
  end.
Proof.
  cbn [npgettext]. destruct (h !! self) as [o|]; [|reflexivity].
  cbn [mbind option_bind]. rewrite percent_CONTEXT_ENCODING.
  cbn [mbind option_bind]. destruct (_catalog o !! _); [reflexivity|].
  destruct (_fallback o); [reflexivity|]. by case_bool_decide.
Qed.

Lemma pgettext_resolve fuel (h : heap) self context message :
  pgettext fuel h self context message
  = resolve (λ o, _catalog o !! KMsg (context +:+ String "004"%char message))
            message fuel h self.
Proof.
  revert self. induction fuel as [|fuel IH]; intros self; [reflexivity|].
  rewrite pgettext_unfold. cbn [resolve].
  destruct (h !! self) as [o|]; [|reflexivity]. cbn [mbind option_bind].
  destruct (_catalog o !! _); [reflexivity|].
  destruct (_fallback o); [apply IH | reflexivity].
Qed.

Lemma npgettext_resolve fuel (h : heap) self context singular plural' num :
  npgettext fuel h self context singular plural' num
  = resolve (λ o, _catalog o !! KPlural (context +:+ String "004"%char singular)
                                        (plural o num))
            (if bool_decide (num = 1%Z) then singular else plural') fuel h self.
Proof.
  revert self. induction fuel as [|fuel IH]; intros self; [reflexivity|].
  rewrite npgettext_unfold. cbn [resolve].
  destruct (h !! self) as [o|]; [|reflexivity]. cbn [mbind option_bind].
  destruct (_catalog o !! _); [reflexivity|].
  destruct (_fallback o); [apply IH | reflexivity].
Qed.

Section Resolve.

Variable probe : translations → option string.
Variable dflt : string.

(** Catalogs that miss are skipped: along a fallback chain, a lookup
    started at the head costs one call per catalog that lacks the key
    and goes on at the next one. *)
Lemma resolve_skip (h : heap) pre :
  ∀ a b post k,
    fallbacks h a (pre ++ b :: post) →
    (∀ x ox, x ∈ pre → h !! x = Some ox → probe ox = None) →
    resolve probe dflt (length pre + k) h a = resolve probe dflt k h b.
Proof.
  induction pre as [|x pre IH]; intros a b post k Hch Hmiss.
  - inversion Hch; subst; reflexivity.
  - inversion Hch as [a' o Ha Hfb Heq | a' o b' l Ha Hfb Hrest Heq]; subst.
    { by destruct pre. }
    change (length (x :: pre) + k) with (S (length pre + k)).
    cbn [resolve]. rewrite Ha. cbn [mbind option_bind].
    rewrite (Hmiss x o), Hfb; [|left|done].
    apply (IH b' b post k Hrest).
    intros y oy Hy. apply Hmiss. by right.
Qed.

(** On a finite chain the lookup returns, given one unit of fuel per
    catalog. *)
Lemma resolve_terminates (h : heap) a l :
  fallbacks h a l → ∀ k : nat, (length l ≤ k)%nat → is_Some (resolve probe dflt k h a).
Proof.
  induction 1 as [a o Ha Hfb | a o b l Ha Hfb Hrest IH]; intros k Hk;
    (destruct k as [|k]; [simpl in Hk; lia|]);
    cbn [resolve]; rewrite Ha; cbn [mbind option_bind];
    destruct (probe o); try by eexists.
  - rewrite Hfb. by eexists.
  - rewrite Hfb. apply IH. simpl in Hk. lia.
Qed.

(** More fuel does not change a result. *)
Lemma resolve_mono (h : heap) k :
  ∀ a v, resolve probe dflt k h a = Some v →
  ∀ k' : nat, (k ≤ k')%nat → resolve probe dflt k' h a = Some v.
Proof.
  induction k as [|k IH]; intros a v Hr k' Hk; [discriminate|].
  destruct k' as [|k']; [lia|].
  cbn [resolve] in *. destruct (h !! a) as [o|]; [|discriminate].
  cbn [mbind option_bind] in *.
  destruct (probe o); [done|].
  destruct (_fallback o); [|done].
  apply (IH _ _ Hr). lia.
Qed.

End Resolve.

(** C1: a catalog without fallback whose mapping lacks the key answers
    [pgettext] with the message id itself, the context dropped, and
    [npgettext] with [singular] when [num == 1] and [plural] otherwise. *)
Theorem total_miss_identity fuel (h : heap) self o :
  h !! self = Some o → _fallback o = None →
  (∀ context message,
     _catalog o !! KMsg (context +:+ String "004"%char message) = None →
     pgettext (S fuel) h self context message = Some message) ∧
  (∀ context singular plural' num,
     _catalog o !! KPlural (context +:+ String "004"%char singular) (plural o num)
     = None →
     npgettext (S fuel) h self context singular plural' num
     = Some (if bool_decide (num = 1%Z) then singular else plural')).
Proof.
  intros Ho Hfb. split.
  - intros context message Hmiss.
    rewrite pgettext_unfold, Ho. cbn [mbind option_bind]. by rewrite Hmiss, Hfb.
  - intros context singular plural' num Hmiss.
    rewrite npgettext_unfold, Ho. cbn [mbind option_bind]. by rewrite Hmiss, Hfb.
Qed.

(** C2: the key composed from a context and a message id is the context,
    the one character of code 4, and the message id.  [pgettext] looks that
    string up; [npgettext] looks it up paired with the plural index.  For
    "ctx" and "msg" the key is the literal "ctx\x04msg". *)
Theorem context_key_encoding :
  (∀ context message,
     percent CONTEXT_ENCODING [context; message]
     = Some (context +:+ String "004"%char message)) ∧
  percent CONTEXT_ENCODING ["ctx"; "msg"]
  = Some (String "c" (String "t" (String "x" (String "004" "msg")))) ∧
  (∀ fuel (h : heap) self context message,
     pgettext (S fuel) h self context message =
     o ← h !! self;
     match _catalog o !! KMsg (context +:+ String "004"%char message) with
     | Some tmsg => Some tmsg
     | None =>
         match _fallback o with
         | Some fb => pgettext fuel h fb context message
         | None => Some message
         end
     end) ∧
  (∀ fuel (h : heap) self context singular plural' num,
     npgettext (S fuel) h self context singular plural' num =
     o ← h !! self;
     match _catalog o !! KPlural (context +:+ String "004"%char singular)
                                 (plural o num) with
     | Some tmsg => Some tmsg
     | None =>
         match _fallback o with
         | Some fb => npgettext fuel h fb context singular plural' num
         | None => Some (if bool_decide (num = 1%Z) then singular else plural')
         end
     end).
Proof.
  split; [exact percent_CONTEXT_ENCODING|].
  split; [reflexivity|].
  split; intros; [apply pgettext_unfold | apply npgettext_unfold].
Qed.

(** C3: on a finite fallback chain, a lookup started at its head returns
    the value stored by the first catalog of the chain that has the key,
    however many catalogs before it lack it. *)
Theorem fallback_chain_resolves (h : heap) a pre b post ob fuel :
  fallbacks h a (pre ++ b :: post) → h !! b = Some ob → (length pre < fuel)%nat →
  (∀ context message v,
     (∀ x ox, x ∈ pre → h !! x = Some ox →
        _catalog ox !! KMsg (context +:+ String "004"%char message) = None) →
     _catalog ob !! KMsg (context +:+ String "004"%char message) = Some v →
     pgettext fuel h a context message = Some v) ∧
  (∀ context singular plural' num v,
     (∀ x ox, x ∈ pre → h !! x = Some ox →
        _catalog ox !! KPlural (context +:+ String "004"%char singular) (plural ox num)
        = None) →
     _catalog ob !! KPlural (context +:+ String "004"%char singular) (plural ob num)
     = Some v →
     npgettext fuel h a context singular plural' num = Some v).
Proof.
  intros Hch Hb Hfuel.
  assert (∃ k, fuel = length pre + S k) as [k ->] by (exists (fuel - S (length pre)); lia).
  split.
  - intros context message v Hmiss Hhit.
    rewrite pgettext_resolve.
    rewrite (resolve_skip _ _ h pre a b post (S k) Hch Hmiss).
    cbn [resolve]. rewrite Hb. cbn [mbind option_bind]. by rewrite Hhit.
  - intros context singular plural' num v Hmiss Hhit.
    rewrite npgettext_resolve.
    rewrite (resolve_skip _ _ h pre a b post (S k) Hch Hmiss).
    cbn [resolve]. rewrite Hb. cbn [mbind option_bind]. by rewrite Hhit.
Qed.

(** C8: with a domain name that is not a key of [_domains], [dgettext]
    returns what [gettext] returns on the same catalog. *)
Theorem dgettext_unregistered_domain
    (gettext' : heap → addr → string → option string)
    (h : heap) self o domain' message :
  h !! self = Some o → _domains o !! domain' = None →
  dgettext gettext' h self domain' message = gettext' h self message.
Proof.
  intros Ho Hd. unfold dgettext, domains_get.
  rewrite Ho. cbn [mbind option_bind]. by rewrite Hd.
Qed.

(** ** Merging and registering catalogs *)

(** [merge] of a [Translations] object, in one step. *)
Lemma merge_Translations (h : heap) self other s o :
  h !! self = Some s → h !! other = Some o → klass o = Translations →
  merge h self other
  = Some (<[self := set_files (files s ++ files o)
                      (set_catalog (_catalog o ∪ _catalog s) s)]> h, self).
Proof.
  intros Hs Ho Hk. unfold merge. rewrite Hs, Ho. cbn [mbind option_bind].
  rewrite Hk. cbn [isinstance_GNUTranslations isinstance_Translations].
  rewrite lookup_insert_eq. cbn [mbind option_bind].
  destruct (decide (self = other)) as [->|Hne].
  - rewrite lookup_insert_eq. cbn [mbind option_bind].
    assert (o = s) as -> by congruence.
    by rewrite insert_insert_eq.
  - rewrite lookup_insert_ne, Ho by done. cbn [mbind option_bind].
    by rewrite insert_insert_eq.
Qed.

(** C4 (as the code has it): [add(other, merge=True)] with [other] a
    [Translations] of the domain of [self] returns [self], whose mapping
    is now the union of the two mappings, the entries of [other] winning,
    whose [files] is its old list followed by that of [other], and whose
    [_domains] is as before; no other object changes.  The class of
    [other] matters: [merge] is guarded by [isinstance]. *)
Theorem add_same_domain_merges fuel (h : heap) self other s o :
  h !! self = Some s → h !! other = Some o →
  klass o = Translations → domain o = domain s →
  ∃ s',
    add fuel h self other true = Some (<[self := s']> h, self) ∧
    _catalog s' = _catalog o ∪ _catalog s ∧
    (∀ k, _catalog s' !! k
          = match _catalog o !! k with
            | Some v => Some v
            | None => _catalog s !! k
            end) ∧
    files s' = (files s ++ files o)%list ∧
    _domains s' = _domains s.
Proof.
  intros Hs Ho Hk Hd.
  exists (set_files (files s ++ files o) (set_catalog (_catalog o ∪ _catalog s) s)).
  split; [|split; [reflexivity|split; [|split; reflexivity]]].
  - unfold add. rewrite Hs, Ho. cbn [mbind option_bind].
    rewrite (bool_decide_eq_true_2 _ Hd). cbn [andb].
    by apply merge_Translations.
  - intros k. cbn [set_files set_catalog _catalog].
    rewrite lookup_union. by destruct (_catalog o !! k), (_catalog s !! k).
Qed.

(** *** Fallback chains under [add_fallback] *)

Lemma fallbacks_head (h : heap) a l :
  fallbacks h a l → ∃ l', l = a :: l'.
Proof. destruct 1; eauto. Qed.

(** The last object of a chain is the one without fallback. *)
Lemma fallbacks_last_None (h : heap) a l :
  fallbacks h a l → ∃ z oz, last l = Some z ∧ h !! z = Some oz ∧ _fallback oz = None.
Proof.
  induction 1 as [a o Ha Hfb | a o b l Ha Hfb Hrest IH].
  - by exists a, o.
  - destruct IH as (z & oz & Hl & Hz & Hnone). exists z, oz.
    destruct (fallbacks_head _ _ _ Hrest) as [l' ->].
    by rewrite last_cons_cons.
Qed.

(** [add_fallback] walks to the end of the chain and links it there. *)
Lemma add_fallback_chain (h : heap) a l fb :
  fallbacks h a l → ∀ fuel : nat, (length l ≤ fuel)%nat →
  ∃ z oz, last l = Some z ∧ h !! z = Some oz ∧ _fallback oz = None ∧
          add_fallback fuel h a fb = Some (<[z := set_fallback (Some fb) oz]> h).
Proof.
  induction 1 as [a o Ha Hfb | a o b l Ha Hfb Hrest IH]; intros fuel Hfuel;
    (destruct fuel as [|fuel]; [simpl in Hfuel; lia|]);
    cbn [add_fallback]; rewrite Ha; cbn [mbind option_bind]; rewrite Hfb.
  - by exists a, o.
  - destruct (IH fuel) as (z & oz & Hl & Hz & Hnone & Hadd);
      [simpl in Hfuel; lia|].
    exists z, oz. destruct (fallbacks_head _ _ _ Hrest) as [l' ->].
    by rewrite last_cons_cons.
Qed.

(** A chain only depends on the [_fallback] of the objects on it. *)
Lemma fallbacks_agree (h h' : heap) a l :
  fallbacks h a l →
  (∀ y, y ∈ l → _fallback <$> h' !! y = _fallback <$> h !! y) →
  fallbacks h' a l.
Proof.
  induction 1 as [a o Ha Hfb | a o b l Ha Hfb Hrest IH]; intros Hag.
  - specialize (Hag a ltac:(left)). rewrite Ha in Hag.
    destruct (h' !! a) as [o'|] eqn:Ha'; [|discriminate].
    apply (fallbacks_last _ _ o'); [done|]. cbn in Hag. congruence.
  - pose proof (Hag a ltac:(left)) as Hag'. rewrite Ha in Hag'.
    destruct (h' !! a) as [o'|] eqn:Ha'; [|discriminate].
    apply (fallbacks_next _ _ o' b); [done| cbn in Hag'; congruence |].
    apply IH. intros y Hy. apply Hag. by right.
Qed.

(** Linking the end [z] of one chain to the head of another one that
    does not pass through [z] gives the concatenated chain. *)
Lemma fallbacks_extend (h h' : heap) a lo z fb ls :
  fallbacks h a lo → last lo = Some z →
  (_fallback <$> h' !! z = Some (Some fb)) →
  (∀ y, y ≠ z → _fallback <$> h' !! y = _fallback <$> h !! y) →
  fallbacks h' fb ls →
  fallbacks h' a (lo ++ ls)%list.
Proof.
  intros Hch Hlast Hz Hag Hls.
  induction Hch as [a o Ha Hfb | a o b l Ha Hfb Hrest IH].
  - injection Hlast as ->.
    destruct (h' !! z) as [oz'|] eqn:Hz'; [|discriminate].
    apply (fallbacks_next _ _ oz' fb); [done| cbn in Hz; congruence | done].
  - destruct (fallbacks_head _ _ _ Hrest) as [l' ->].
    rewrite last_cons_cons in Hlast.
    destruct (fallbacks_last_None _ _ _ Hrest) as (z' & oz & Hl & Hoz & Hnone).
    assert (z' = z) as -> by congruence.
    assert (a ≠ z) as Hne by (intros ->; congruence).
    pose proof (Hag a Hne) as Ha'. rewrite Ha in Ha'.
    destruct (h' !! a) as [o'|] eqn:Hho'; [|discriminate].
    apply (fallbacks_next _ _ o' b); [done| cbn in Ha'; congruence |].
    by apply IH.
Qed.

(** The store after [add] took its last branch: the end [z] of the chain
    of [other] is linked to [self], then [self] gets the new entry of
    [_domains]. *)
Lemma add_unregistered_store fuel (h : heap) self other s o lo :
  h !! self = Some s → h !! other = Some o →
  domain o ≠ domain s → _domains s !! domain o = None →
  fallbacks h other lo → (length lo ≤ fuel)%nat →
  ∃ z oz s1,
    last lo = Some z ∧ h !! z = Some oz ∧ _fallback oz = None ∧
    <[z := set_fallback (Some self) oz]> h !! self = Some s1 ∧
    _domains s1 = _domains s ∧
    add fuel h self other true
    = Some (<[self := set_domains (<[domain o := other]> (_domains s1)) s1]>
              (<[z := set_fallback (Some self) oz]> h), self).
Proof.
  intros Hs Ho Hdom Hunreg Hch Hfuel.
  destruct (add_fallback_chain h other lo self Hch fuel Hfuel)
    as (z & oz & Hlast & Hz & Hnone & Hadd).
  assert (∃ s1, <[z := set_fallback (Some self) oz]> h !! self = Some s1
                ∧ _domains s1 = _domains s) as (s1 & Hs1 & Hd1).
  { destruct (decide (z = self)) as [->|Hne].
    - rewrite lookup_insert_eq. eexists; split; [done|].
      cbn. congruence.
    - rewrite lookup_insert_ne by done. by exists s. }
  exists z, oz, s1. do 5 (split; [done|]).
  unfold add. rewrite Hs, Ho. cbn [mbind option_bind].
  rewrite (bool_decide_eq_false_2 _ Hdom). cbn [andb].
  rewrite Hunreg, Hadd. cbn [mbind option_bind].
  rewrite Hs1. cbn [mbind option_bind]. reflexivity.
Qed.

(** Overwriting an object by one with the same [f] changes no [f]. *)
Lemma lookup_insert_same_field {B} (f : translations → B) (h : heap) x y o o' :
  h !! x = Some o → f o' = f o → f <$> <[x := o']> h !! y = f <$> h !! y.
Proof.
  intros Hx Hf. destruct (decide (x = y)) as [->|Hne].
  - rewrite lookup_insert_eq, Hx. cbn. by rewrite Hf.
  - by rewrite lookup_insert_ne.
Qed.

(** What that store keeps and what it changes. *)
Lemma add_unregistered_fields (h : heap) self z oz s1 d :
  h !! z = Some oz →
  <[z := set_fallback (Some self) oz]> h !! self = Some s1 →
  let h' := <[self := set_domains d s1]> (<[z := set_fallback (Some self) oz]> h) in
  (_fallback <$> h' !! z = Some (Some self)) ∧
  (∀ x, x ≠ z → _fallback <$> h' !! x = _fallback <$> h !! x) ∧
  (∀ x, _catalog <$> h' !! x = _catalog <$> h !! x) ∧
  (∀ x, plural <$> h' !! x = plural <$> h !! x).
Proof.
  intros Hz Hs1 h'. subst h'. split; [|split; [|split]].
  - rewrite (lookup_insert_same_field _fallback _ _ _ _ _ Hs1) by done.
    by rewrite lookup_insert_eq.
  - intros x Hne.
    rewrite (lookup_insert_same_field _fallback _ _ _ _ _ Hs1) by done.
    by rewrite lookup_insert_ne.
  - intros x.
    rewrite (lookup_insert_same_field _catalog _ _ _ _ _ Hs1) by done.
    by rewrite (lookup_insert_same_field _catalog _ _ _ _ _ Hz).
  - intros x.
    rewrite (lookup_insert_same_field plural _ _ _ _ _ Hs1) by done.
    by rewrite (lookup_insert_same_field plural _ _ _ _ _ Hz).
Qed.

(** A lookup at the head of a chain whose first catalogs all miss gives
    what the lookup at the catalog after them gives. *)
Lemma resolve_falls_through probe dflt (h : heap) a pre b post (fuel : nat) :
  fallbacks h a (pre ++ b :: post) → fallbacks h b (b :: post) →
  (∀ x ox, x ∈ pre → h !! x = Some ox → probe ox = None) →
  (length pre + length (b :: post) ≤ fuel)%nat →
  is_Some (resolve probe dflt fuel h b) ∧
  resolve probe dflt fuel h a = resolve probe dflt fuel h b.
Proof.
  intros Hch Hb Hmiss Hfuel.
  assert (∃ k, fuel = length pre + k ∧ (length (b :: post) ≤ k)%nat)
    as (k & -> & Hk) by (exists (fuel - length pre); lia).
  destruct (resolve_terminates probe dflt h b _ Hb k Hk) as [v Hv].
  rewrite (resolve_skip probe dflt h pre a b post k Hch Hmiss), Hv.
  rewrite (resolve_mono probe dflt h k b v Hv (length pre + k)) by lia.
  split; [by eexists | done].
Qed.

(** Once the end [z] of a chain is linked to [fb], a lookup at the head
    that misses in every catalog of the chain goes on as the lookup at
    [fb], one call later per catalog passed; nothing is asked of [fb]. *)
Lemma resolve_linked probe dflt (h h' : heap) a lo z fb (k : nat) :
  fallbacks h a lo → last lo = Some z →
  (_fallback <$> h' !! z = Some (Some fb)) →
  (∀ y, y ≠ z → _fallback <$> h' !! y = _fallback <$> h !! y) →
  (∀ x ox', x ∈ lo → h' !! x = Some ox' → probe ox' = None) →
  resolve probe dflt (length lo + k) h' a = resolve probe dflt k h' fb.
Proof.
  intros Hch Hlast Hz Hag Hmiss.
  induction Hch as [a o Ha Hfb | a o b l Ha Hfb Hrest IH].
  - injection Hlast as ->.
    destruct (h' !! z) as [oz'|] eqn:Hz'; [|discriminate].
    cbn [length Nat.add resolve]. rewrite Hz'. cbn [mbind option_bind].
    rewrite (Hmiss z oz' ltac:(left) Hz').
    cbn in Hz. injection Hz as ->. reflexivity.
  - destruct (fallbacks_head _ _ _ Hrest) as [l' ->].
    rewrite last_cons_cons in Hlast.
    destruct (fallbacks_last_None _ _ _ Hrest) as (z' & oz & Hl & Hoz & Hnone).
    assert (z' = z) as -> by congruence.
    assert (a ≠ z) as Hne by (intros ->; congruence).
    pose proof (Hag a Hne) as Ha'. rewrite Ha in Ha'.
    destruct (h' !! a) as [o'|] eqn:Hho'; [|discriminate].
    change (length (a :: b :: l') + k) with (S (length (b :: l') + k)).
    cbn [resolve]. rewrite Hho'. cbn [mbind option_bind].
    rewrite (Hmiss a o' ltac:(left) Hho').
    cbn in Ha'. injection Ha' as ->. rewrite Hfb.
    apply IH; [done|]. intros x ox' Hx. apply Hmiss. by right.
Qed.

(** C5 (as the code has it): [add(other, merge=True)] with [other] of a
    domain that is neither that of [self] nor registered returns [self],
    registers the very object [other] under its domain, and appends [self]
    to the fallback chain of [other]: the last catalog [z] of that chain
    gets [self] as its fallback and no other link changes, [z] being
    [other] itself when [other] had no fallback.  A domain-qualified
    lookup that misses in every catalog of the old chain of [other] falls
    through to [self]: after one call per catalog of that chain it goes on
    as the same lookup on [self], whatever the chain of [self] is.  Where
    the chain of [self] is finite and shares no catalog with that of
    [other], both lookups return. *)
Theorem add_registers_and_chains fuel (h : heap) self other s o lo :
  h !! self = Some s → h !! other = Some o →
  domain o ≠ domain s → _domains s !! domain o = None →
  fallbacks h other lo → (length lo ≤ fuel)%nat →
  ∃ h' s' z oz,
    add fuel h self other true = Some (h', self) ∧
    (h' !! self = Some s' ∧
     _domains s' = <[domain o := other]> (_domains s) ∧
     _domains s' !! domain o = Some other) ∧
    (last lo = Some z ∧ h !! z = Some oz ∧ _fallback oz = None ∧
     _fallback <$> h' !! z = Some (Some self) ∧
     (∀ x, x ≠ z → _fallback <$> h' !! x = _fallback <$> h !! x) ∧
     (_fallback o = None → z = other)) ∧
    (∀ x, _catalog <$> h' !! x = _catalog <$> h !! x) ∧
    (∀ k : nat,
       (∀ context message,
          (∀ x ox, x ∈ lo → h !! x = Some ox →
             _catalog ox !! KMsg (context +:+ String "004"%char message) = None) →
          dpgettext (length lo + k) h' self (domain o) context message
          = pgettext k h' self context message) ∧
       (∀ context singular plural' num,
          (∀ x ox, x ∈ lo → h !! x = Some ox →
             _catalog ox !! KPlural (context +:+ String "004"%char singular)
                                    (plural ox num) = None) →
          dnpgettext (length lo + k) h' self (domain o) context singular plural' num
          = npgettext k h' self context singular plural' num)) ∧
    (∀ ls, fallbacks h self ls → (∀ x, x ∈ lo → x ∉ ls) →
       fallbacks h' other (lo ++ ls)%list ∧
       ∀ fuel' : nat, (length lo + length ls ≤ fuel')%nat →
         (∀ context message,
            (∀ x ox, x ∈ lo → h !! x = Some ox →
               _catalog ox !! KMsg (context +:+ String "004"%char message) = None) →
            is_Some (pgettext fuel' h' self context message) ∧
            dpgettext fuel' h' self (domain o) context message
            = pgettext fuel' h' self context message) ∧
         (∀ context singular plural' num,
            (∀ x ox, x ∈ lo → h !! x = Some ox →
               _catalog ox !! KPlural (context +:+ String "004"%char singular)
                                      (plural ox num) = None) →
            is_Some (npgettext fuel' h' self context singular plural' num) ∧
            dnpgettext fuel' h' self (domain o) context singular plural' num
            = npgettext fuel' h' self context singular plural' num)).
Proof.
  intros Hs Ho Hdom Hunreg Hch Hfuel.
  destruct (add_unregistered_store fuel h self other s o lo Hs Ho Hdom Hunreg Hch Hfuel)
    as (z & oz & s1 & Hlast & Hz & Hnone & Hs1 & Hd1 & Hadd).
  destruct (add_unregistered_fields h self z oz s1
              (<[domain o := other]> (_domains s1)) Hz Hs1)
    as (Hfz & Hfx & Hcat & Hpl).
  set (h' := <[self := set_domains (<[domain o := other]> (_domains s1)) s1]>
               (<[z := set_fallback (Some self) oz]> h)) in *.
  assert (h' !! self = Some (set_domains (<[domain o := other]> (_domains s1)) s1))
    as Hself' by (unfold h'; by rewrite lookup_insert_eq).
  exists h', (set_domains (<[domain o := other]> (_domains s1)) s1), z, oz.
  split; [exact Hadd|].
  split.
  { split; [exact Hself'|]. cbn [set_domains _domains]. rewrite Hd1.
    split; [reflexivity | by rewrite lookup_insert_eq]. }
  split.
  { do 5 (split; [done|]).
    intros Hfo. inversion Hch as [a' o' Ha Hfb Heq | a' o' b l Ha Hfb Hrest Heq]; subst.
    - by injection Hlast.
    - congruence. }
  split; [exact Hcat|].
  assert (∀ x ox', x ∈ lo → h' !! x = Some ox' →
            ∃ ox, h !! x = Some ox ∧ _catalog ox' = _catalog ox
                  ∧ plural ox' = plural ox) as Hback.
  { intros x ox' _ Hx'. pose proof (Hcat x) as Hc. pose proof (Hpl x) as Hp.
    rewrite Hx' in Hc, Hp. destruct (h !! x) as [ox|]; [|discriminate].
    exists ox. cbn in Hc, Hp. split; [done|]. split; congruence. }
  split.
  { intros k. split.
    - intros context message Hmiss.
      unfold dpgettext, domains_get. rewrite Hself'. cbn [mbind option_bind].
      cbn [set_domains _domains]. rewrite lookup_insert_eq. cbn [default].
      rewrite !pgettext_resolve.
      apply (resolve_linked _ _ h h' other lo z self k Hch Hlast Hfz Hfx).
      intros x ox' Hx Hx'. destruct (Hback x ox' Hx Hx') as (ox & Hox & Hc & _).
      rewrite Hc. by apply (Hmiss x).
    - intros context singular plural' num Hmiss.
      unfold dnpgettext, domains_get. rewrite Hself'. cbn [mbind option_bind].
      cbn [set_domains _domains]. rewrite lookup_insert_eq. cbn [default].
      rewrite !npgettext_resolve.
      apply (resolve_linked _ _ h h' other lo z self k Hch Hlast Hfz Hfx).
      intros x ox' Hx Hx'. destruct (Hback x ox' Hx Hx') as (ox & Hox & Hc & Hp).
      rewrite Hc, Hp. by apply (Hmiss x). }
  intros ls Hls Hdisj.
  assert (z ∈ lo) as Hzlo by (by apply last_Some_elem_of).
  assert (fallbacks h' self ls) as Hls'.
  { apply (fallbacks_agree h); [done|].
    intros y Hy. apply Hfx. intros ->. by apply (Hdisj z). }
  assert (fallbacks h' other (lo ++ ls)%list) as Hch'
    by (by apply (fallbacks_extend h h' other lo z self ls)).
  split; [exact Hch'|].
  intros fuel' Hfuel'.
  destruct (fallbacks_head _ _ _ Hls) as [ls' ->].
  split.
  - intros context message Hmiss.
    unfold dpgettext, domains_get. rewrite Hself'. cbn [mbind option_bind].
    cbn [set_domains _domains]. rewrite lookup_insert_eq. cbn [default].
    rewrite !pgettext_resolve.
    destruct (resolve_falls_through
                (λ o, _catalog o !! KMsg (context +:+ String "004"%char message))
                message h' other lo self ls' fuel' Hch' Hls') as [Hsome Heq];
      [|done|done].
    intros x ox' Hx Hx'. destruct (Hback x ox' Hx Hx') as (ox & Hox & Hc & _).
    rewrite Hc. by apply (Hmiss x).
  - intros context singular plural' num Hmiss.
    unfold dnpgettext, domains_get. rewrite Hself'. cbn [mbind option_bind].
    cbn [set_domains _domains]. rewrite lookup_insert_eq. cbn [default].
    rewrite !npgettext_resolve.
    destruct (resolve_falls_through
                (λ o, _catalog o !! KPlural (context +:+ String "004"%char singular)
                                            (plural o num))
                (if bool_decide (num = 1%Z) then singular else plural')
                h' other lo self ls' fuel' Hch' Hls') as [Hsome Heq];
      [|done|done].
    intros x ox' Hx Hx'. destruct (Hback x ox' Hx Hx') as (ox & Hox & Hc & Hp).
    rewrite Hc, Hp. by apply (Hmiss x).
Qed.

(** ** The statements at concrete catalogs *)

Import Examples.

Ltac each_member :=
  intros ? ? Hin Hlk;
  repeat (apply elem_of_cons in Hin as [->|Hin]);
  [ vm_compute in Hlk; injection Hlk as <-; reflexivity ..
  | by apply elem_of_nil in Hin ].

Lemma total_miss_identity_witness :
  pgettext 1 h_null 0 "menu" "File" = Some "File" ∧
  npgettext 1 h_null 0 "menu" "file" "files" 1 = Some "file" ∧
  npgettext 1 h_null 0 "menu" "file" "files" 0 = Some "files".
Proof.
  destruct (total_miss_identity 0 h_null 0 NullTranslations_init eq_refl eq_refl)
    as [Hp Hn].
  split; [apply Hp; reflexivity|].
  split; [apply (Hn "menu" "file" "files" 1%Z); reflexivity
         |apply (Hn "menu" "file" "files" 0%Z); reflexivity].
Defined.

Lemma fallback_chain_resolves_witness :
  pgettext 3 h_chain 0 "menu" "File" = Some "Datei" ∧
  npgettext 3 h_chain 0 "menu" "file" "files" 5 = Some "Dateien".
Proof.
  assert (fallbacks h_chain 0 ([0; 1] ++ 2 :: [])) as Hch.
  { eapply fallbacks_next; [reflexivity..|].
    eapply fallbacks_next; [reflexivity..|].
    eapply fallbacks_last; reflexivity. }
  destruct (fallback_chain_resolves h_chain 0 [0; 1] 2 []
              (set_catalog {[ KMsg menu_File := "Datei";
                              KPlural menu_file 1 := "Dateien" ]}
                 (Translations_init (Some "base"))) 3 Hch eq_refl
              ltac:(simpl; lia)) as [Hp Hn].
  split.
  - apply Hp; [each_member | reflexivity].
  - apply Hn; [each_member | reflexivity].
Defined.

Lemma dgettext_unregistered_domain_witness :
  dgettext (gettext 1) h_null 0 (Some "extra") "File" = Some "File".
Proof.
  rewrite (dgettext_unregistered_domain (gettext 1) h_null 0 NullTranslations_init
             (Some "extra") "File" eq_refl eq_refl).
  reflexivity.
Defined.

Lemma add_same_domain_merges_witness :
  ∃ s', add 0 h_merge 0 1 true = Some (<[0 := s']> h_merge, 0) ∧
        _catalog s' = {[ KMsg "hello" := "yo"; KMsg "bye" := "later" ]} ∧
        files s' = ["a.mo"; "b.mo"] ∧
        _domains s' = ∅.
Proof.
  destruct (add_same_domain_merges 0 h_merge 0 1 cat_A cat_B
              eq_refl eq_refl eq_refl eq_refl)
    as (s' & Hadd & Hcat & _ & Hfiles & Hdom).
  exists s'. split; [exact Hadd|].
  split; [rewrite Hcat; by vm_compute|].
  split; [exact Hfiles | exact Hdom].
Defined.

Lemma add_registers_and_chains_witness :
  ∃ h', add 1 h_domains 0 1 true = Some (h', 0) ∧
        (_domains <$> h' !! 0) = Some {[ Some "extra" := 1 ]} ∧
        (_fallback <$> h' !! 1) = Some (Some 0) ∧
        dpgettext 2 h' 0 (Some "extra") "menu" "File"
        = pgettext 1 h' 0 "menu" "File" ∧
        is_Some (pgettext 2 h' 0 "menu" "File") ∧
        dpgettext 2 h' 0 (Some "extra") "menu" "File"
        = pgettext 2 h' 0 "menu" "File".
Proof.
  assert (fallbacks h_domains 1 [1]) as Hch
    by (eapply fallbacks_last; reflexivity).
  assert (fallbacks h_domains 0 [0]) as Hself
    by (eapply fallbacks_last; reflexivity).
  destruct (add_registers_and_chains 1 h_domains 0 1 primary
              (Translations_init (Some "extra")) [1]
              eq_refl eq_refl ltac:(discriminate) eq_refl Hch ltac:(simpl; lia))
    as (h' & s' & z & oz & Hadd & (Hs' & Hdom & _) & (_ & _ & _ & Hfz & _ & Hz) & _
        & Hthrough & Hreturns).
  exists h'. split; [exact Hadd|].
  split; [by rewrite Hs'; cbn; rewrite Hdom|].
  split; [by rewrite <- (Hz eq_refl)|].
  split.
  - destruct (Hthrough 1) as [Hp _].
    apply (Hp "menu" "File"). each_member.
  - destruct (Hreturns [0] Hself) as [_ Hfuel].
    { intros x Hx. apply list_elem_of_singleton in Hx as ->.
      intros H0. by apply list_elem_of_singleton in H0. }
    destruct (Hfuel 2 ltac:(simpl; lia)) as [Hp _].
    apply (Hp "menu" "File"). each_member.
Defined.

(** With a fallback of its own, the incoming catalog keeps it: after
    [add], its fallback is not [self], and a domain-qualified lookup that
    misses in it is answered by its old fallback, not by [self]. *)
Lemma add_keeps_fallback_of_other :
  (domain <$> h_older !! 1) ≠ (domain <$> h_older !! 0) ∧
  ((λ s, _domains s !! Some "extra") <$> h_older !! 0) = Some None ∧
  ((λ o, _catalog o !! KMsg menu_File) <$> h_older !! 1) = Some None ∧
  match add 2 h_older 0 1 true with
  | Some (h', _) =>
      (_fallback <$> h' !! 1) = Some (Some 2) ∧
      (_fallback <$> h' !! 1) ≠ Some (Some 0) ∧
      dpgettext 3 h' 0 (Some "extra") "menu" "File" = Some "from older" ∧
      pgettext 3 h' 0 "menu" "File" = Some "from self" ∧
      dpgettext 3 h' 0 (Some "extra") "menu" "File" ≠ pgettext 3 h' 0 "menu" "File"
  | None => False
  end.
Proof. vm_compute. repeat split; discriminate. Qed.

(** An incoming [NullTranslations] of the domain of [self] is not merged:
    [add] returns [self] as it was.  The mapping of [self] is not the
    union (the entry only [other] has is missing, and on the shared key
    the entry of [self] stays), and the file list is not extended. *)
Lemma add_same_domain_skips_NullTranslations :
  (klass <$> h_null_merge !! 0) = Some Translations ∧
  (domain <$> h_null_merge !! 1) = (domain <$> h_null_merge !! 0) ∧
  ((λ o, _catalog o !! KMsg "hello") <$> h_null_merge !! 1) = Some (Some "yo") ∧
  ((λ o, _catalog o !! KMsg "bye") <$> h_null_merge !! 1) = Some (Some "later") ∧
  (files <$> h_null_merge !! 0) = Some ["a.mo"] ∧
  (files <$> h_null_merge !! 1) = Some ["n.mo"] ∧
  match add 0 h_null_merge 0 1 true with
  | Some (h', r) =>
      r = 0 ∧
      ((λ s', _catalog s' !! KMsg "hello") <$> h' !! 0) = Some (Some "hi") ∧
      ((λ s', _catalog s' !! KMsg "hello") <$> h' !! 0) ≠ Some (Some "yo") ∧
      ((λ s', _catalog s' !! KMsg "bye") <$> h' !! 0) = Some None ∧
      ((λ s', _catalog s' !! KMsg "bye") <$> h' !! 0) ≠ Some (Some "later") ∧
      (files <$> h' !! 0) = Some ["a.mo"] ∧
      (files <$> h' !! 0) ≠ Some ["a.mo"; "n.mo"]
  | None => False
  end.
Proof. vm_compute. repeat split; discriminate. Qed.

End CatalogsFacts.

(** ** Lazy proxies *)

Module LazyFacts.
Import Lazy.

Section Facts.

Context {W V Args exn : Type}.
Variable isinstance_AttributeError : exn → bool.
Variable getattr : option V → string → W → (option V + exn) * W.

Abbreviation state := (@state W V Args exn).
Abbreviation value := (value isinstance_AttributeError).
Abbreviation __getattr__ := (__getattr__ isinstance_AttributeError getattr).
Abbreviation run := (run isinstance_AttributeError getattr).
Abbreviation accesses := (accesses isinstance_AttributeError getattr).

(** The cases of [value]. *)
Lemma value_cached (st : state) v :
  _value (proxy st) = Some v → value st = (inl (Some v), st).
Proof. intros Hv. unfold Lazy.value. by rewrite Hv. Qed.

Lemma value_returns (st : state) v w' :
  _value (proxy st) = None →
  _func (proxy st) (_args (proxy st)) (world st) = (inl v, w') →
  value st
  = (inl v,
     mkState (if _is_cache_enabled (proxy st) then set_value v (proxy st)
              else proxy st) w' (S (calls st))).
Proof.
  intros Hv Hf. unfold Lazy.value, call_func. rewrite Hv, Hf. cbn.
  by destruct (_is_cache_enabled (proxy st)).
Qed.

Lemma value_raises (st : state) e w' :
  _value (proxy st) = None →
  _func (proxy st) (_args (proxy st)) (world st) = (inr e, w') →
  value st
  = (inr e,
     mkState (if isinstance_AttributeError e
              then set_attribute_error (Some e) (proxy st) else proxy st)
             w' (S (calls st))).
Proof.
  intros Hv Hf. unfold Lazy.value, call_func. rewrite Hv, Hf. cbn.
  by destruct (isinstance_AttributeError e).
Qed.

(** No access changes the producer, its arguments or the cache flag. *)
Lemma value_keeps (st : state) :
  _func (proxy (value st).2) = _func (proxy st) ∧
  _args (proxy (value st).2) = _args (proxy st) ∧
  _is_cache_enabled (proxy (value st).2) = _is_cache_enabled (proxy st).
Proof.
  destruct (_value (proxy st)) as [v|] eqn:Hv.
  - by rewrite (value_cached st v Hv).
  - destruct (_func (proxy st) (_args (proxy st)) (world st)) as [[v|e] w'] eqn:Hf.
    + rewrite (value_returns st v w' Hv Hf). cbn.
      destruct (_is_cache_enabled (proxy st)) eqn:Hc; cbn; auto.
    + rewrite (value_raises st e w' Hv Hf). cbn.
      by destruct (isinstance_AttributeError e).
Qed.

(** With an empty slot and the cache flag off, or a producer that
    returns [None], an access invokes the producer and leaves the slot
    empty. *)
Lemma value_uncached (st : state) :
  _value (proxy st) = None →
  _is_cache_enabled (proxy st) = false
  ∨ (_func (proxy st) (_args (proxy st)) (world st)).1 = inl None →
  (value st).1 = (_func (proxy st) (_args (proxy st)) (world st)).1 ∧
  world (value st).2 = (_func (proxy st) (_args (proxy st)) (world st)).2 ∧
  calls (value st).2 = S (calls st) ∧
  _value (proxy (value st).2) = None.
Proof.
  intros Hv Hor.
  destruct (_func (proxy st) (_args (proxy st)) (world st)) as [[v|e] w'] eqn:Hf.
  - rewrite (value_returns st v w' Hv Hf). cbn.
    destruct Hor as [Hc|Hn].
    + by rewrite Hc.
    + cbn in Hn. injection Hn as ->.
      by destruct (_is_cache_enabled (proxy st)).
  - rewrite (value_raises st e w' Hv Hf). cbn.
    by destruct (isinstance_AttributeError e).
Qed.

Lemma accesses_S n (st : state) :
  accesses (S n) st
  = ((value st).1 :: (accesses n (value st).2).1, (accesses n (value st).2).2).
Proof. reflexivity. Qed.

(** Once a value is in the slot, accesses return it and invoke nothing. *)
Lemma accesses_cached n :
  ∀ (st : state) v, _value (proxy st) = Some v →
  accesses n st = (replicate n (inl (Some v)), st).
Proof.
  induction n as [|n IH]; intros st v Hv; [reflexivity|].
  rewrite accesses_S, (value_cached st v Hv). cbn [fst snd].
  by rewrite (IH st v Hv).
Qed.

(** With the cache flag off, every access invokes the producer. *)
Lemma accesses_disabled n :
  ∀ st : state,
    _value (proxy st) = None → _is_cache_enabled (proxy st) = false →
    calls (accesses n st).2 = n + calls st.
Proof.
  induction n as [|n IH]; intros st Hv Hc; [reflexivity|].
  rewrite accesses_S. cbn [snd].
  destruct (value_uncached st Hv (or_introl Hc)) as (_ & _ & Hcalls & Hv').
  destruct (value_keeps st) as (_ & _ & Hflag).
  rewrite IH; [lia | done | congruence].
Qed.


(** The remembered error is only ever overwritten. *)
Lemma step_remembers o (st : state) :
  is_Some (_attribute_error (proxy st)) →
  is_Some (_attribute_error (proxy (step isinstance_AttributeError getattr o st).2)).
Proof.
  intros [e He]. destruct o as [|name]; cbn [step].
  - destruct (_value (proxy st)) as [v|] eqn:Hv.
    + rewrite (value_cached st v Hv). by exists e.
    + destruct (_func (proxy st) (_args (proxy st)) (world st)) as [[v|e'] w'] eqn:Hf.
      * rewrite (value_returns st v w' Hv Hf). cbn.
        destruct (_is_cache_enabled (proxy st)); by exists e.
      * rewrite (value_raises st e' w' Hv Hf). cbn.
        destruct (isinstance_AttributeError e'); [by exists e'|by exists e].
  - unfold Lazy.__getattr__. rewrite He. by exists e.
Qed.

Lemma run_remembers ops :
  ∀ st : state,
    is_Some (_attribute_error (proxy st)) →
    is_Some (_attribute_error (proxy (run ops st).2)).
Proof.
  induction ops as [|o ops IH]; intros st Hst; [done|].
  cbn [Lazy.run snd]. apply IH. by apply step_remembers.
Qed.

(** A lookup with an error remembered raises it and does nothing else. *)
Lemma getattr_remembered (st : state) e name :
  _attribute_error (proxy st) = Some e → __getattr__ st name = (inr e, st).
Proof. intros He. unfold Lazy.__getattr__. by rewrite He. Qed.

(** A step that raises no other missing-attribute error keeps the
    remembered one. *)
Lemma step_keeps_error o (st : state) e :
  _attribute_error (proxy st) = Some e →
  (∀ e', (step isinstance_AttributeError getattr o st).1 = inr e' →
         isinstance_AttributeError e' = true → e' = e) →
  _attribute_error (proxy (step isinstance_AttributeError getattr o st).2) = Some e.
Proof.
  intros He Hsame. destruct o as [|name]; cbn [step] in *.
  - destruct (_value (proxy st)) as [v|] eqn:Hv.
    + by rewrite (value_cached st v Hv).
    + destruct (_func (proxy st) (_args (proxy st)) (world st)) as [[v|e'] w'] eqn:Hf.
      * rewrite (value_returns st v w' Hv Hf). cbn.
        by destruct (_is_cache_enabled (proxy st)).
      * rewrite (value_raises st e' w' Hv Hf) in *. cbn in *.
        destruct (isinstance_AttributeError e') eqn:Hattr; [|done].
        cbn. f_equal. by apply Hsame.
  - by rewrite (getattr_remembered st e name He).
Qed.

Lemma run_keeps_error ops :
  ∀ (st : state) e,
    _attribute_error (proxy st) = Some e →
    (∀ e', inr e' ∈ (run ops st).1 → isinstance_AttributeError e' = true → e' = e) →
    _attribute_error (proxy (run ops st).2) = Some e.
Proof.
  induction ops as [|o ops IH]; intros st e He Hsame; [done|].
  cbn [Lazy.run fst snd] in *. apply IH.
  - apply step_keeps_error; [done|].
    intros e' Hr. apply Hsame. rewrite Hr. by left.
  - intros e' Hin. apply Hsame. by right.
Qed.

(** C6 (as the code has it): with the cache enabled and a first
    invocation that returns a value other than [None], [n >= 1] accesses
    of [.value] invoke the producer once and all return that value; with
    the cache disabled, [n] accesses invoke it [n] times. *)
Theorem value_invocations (f : Args → W → (option V + exn) * W) args w (n : nat) :
  (1 ≤ n)%nat →
  (∀ v w', f args w = (inl (Some v), w') →
     (accesses n (fresh f args true w)).1 = replicate n (inl (Some v)) ∧
     calls (accesses n (fresh f args true w)).2 = 1) ∧
  calls (accesses n (fresh f args false w)).2 = n.
Proof.
  intros Hn. split.
  - intros v w' Hf. destruct n as [|n]; [lia|].
    rewrite accesses_S.
    rewrite (value_returns (fresh f args true w) (Some v) w' eq_refl Hf).
    cbn [fst snd fresh __init__ proxy _is_cache_enabled calls].
    by rewrite (accesses_cached n
                  (mkState (set_value (Some v) (__init__ f args true)) w' 1)
                  v eq_refl).
  - rewrite accesses_disabled; cbn; [lia|done|done].
Qed.

(** C7: an evaluation that fails on a missing attribute raises that
    error, stores it in [_attribute_error] and leaves [_value] empty;
    with an error remembered, [__getattr__] raises it and touches
    nothing, the producer included, and this after any further
    operations; a failure of another kind is raised and changes no slot
    of the proxy. *)
Theorem attribute_error_remembered :
  (∀ (st : state) e w',
     _value (proxy st) = None →
     _func (proxy st) (_args (proxy st)) (world st) = (inr e, w') →
     isinstance_AttributeError e = true →
     value st
     = (inr e, mkState (set_attribute_error (Some e) (proxy st)) w' (S (calls st)))
     ∧ _attribute_error (proxy (value st).2) = Some e
     ∧ _value (proxy (value st).2) = None) ∧
  (∀ (st : state) e name,
     _attribute_error (proxy st) = Some e → __getattr__ st name = (inr e, st)) ∧
  (∀ ops (st : state),
     is_Some (_attribute_error (proxy st)) →
     ∃ e, _attribute_error (proxy (run ops st).2) = Some e ∧
          ∀ name, __getattr__ (run ops st).2 name = (inr e, (run ops st).2)) ∧
  (∀ names (st : state) e,
     _attribute_error (proxy st) = Some e →
     run (Getattr <$> names) st = (replicate (length names) (inr e), st)) ∧
  (∀ (st : state) e w',
     _value (proxy st) = None →
     _func (proxy st) (_args (proxy st)) (world st) = (inr e, w') →
     isinstance_AttributeError e = false →
     value st = (inr e, mkState (proxy st) w' (S (calls st)))).
Proof.
  split; [|split; [|split; [|split]]].
  - intros st e w' Hv Hf Hattr.
    rewrite (value_raises st e w' Hv Hf), Hattr. by cbn.
  - intros st e name. apply getattr_remembered.
  - intros ops st Hst.
    destruct (run_remembers ops st Hst) as [e He]. exists e.
    split; [done|]. intros name. by apply getattr_remembered.
  - intros names. induction names as [|name names IH]; intros st e He; [done|].
    cbn [fmap list_fmap Lazy.run step].
    rewrite (getattr_remembered st e name He). cbn [fst snd].
    change (Lazy.run isinstance_AttributeError getattr (list_fmap _ _ Getattr names) st)
      with (run (Getattr <$> names) st).
    by rewrite (IH st e He).
  - intros st e w' Hv Hf Hattr.
    by rewrite (value_raises st e w' Hv Hf), Hattr.
Qed.


(** C10 (as the code has it): once an error is remembered the slot is
    never emptied; an evaluation that succeeds keeps the error, and the
    lookups after it raise the error instead of reaching the value; over
    any operations the error stays the original one as long as no
    evaluation raises another missing-attribute error, and an evaluation
    that does replaces it. *)
Theorem remembered_error_never_cleared :
  (∀ ops (st : state),
     is_Some (_attribute_error (proxy st)) →
     is_Some (_attribute_error (proxy (run ops st).2))) ∧
  (∀ (st st' : state) e v,
     _attribute_error (proxy st) = Some e → value st = (inl v, st') →
     _attribute_error (proxy st') = Some e ∧
     ∀ name, __getattr__ st' name = (inr e, st')) ∧
  (∀ ops (st : state) e,
     _attribute_error (proxy st) = Some e →
     (∀ e', inr e' ∈ (run ops st).1 → isinstance_AttributeError e' = true → e' = e) →
     _attribute_error (proxy (run ops st).2) = Some e ∧
     ∀ name, __getattr__ (run ops st).2 name = (inr e, (run ops st).2)) ∧
  (∀ (st : state) e e' w' name,
     _attribute_error (proxy st) = Some e →
     _value (proxy st) = None →
     _func (proxy st) (_args (proxy st)) (world st) = (inr e', w') →
     isinstance_AttributeError e' = true →
     __getattr__ (value st).2 name = (inr e', (value st).2)).
Proof.
  split; [exact run_remembers|split; [|split]].
  - intros st st' e v He Hval.
    assert (_attribute_error (proxy st') = Some e) as He'.
    { destruct (_value (proxy st)) as [v0|] eqn:Hv.
      - rewrite (value_cached st v0 Hv) in Hval. by injection Hval as _ <-.
      - destruct (_func (proxy st) (_args (proxy st)) (world st))
          as [[v0|e0] w'] eqn:Hf.
        + rewrite (value_returns st v0 w' Hv Hf) in Hval.
          injection Hval as _ <-. cbn.
          by destruct (_is_cache_enabled (proxy st)).
        + by rewrite (value_raises st e0 w' Hv Hf) in Hval. }
    split; [done|]. intros name. by apply getattr_remembered.
  - intros ops st e He Hsame.
    pose proof (run_keeps_error ops st e He Hsame) as He'.
    split; [done|]. intros name. by apply getattr_remembered.
  - intros st e e' w' name He Hv Hf Hattr.
    apply getattr_remembered.
    rewrite (value_raises st e' w' Hv Hf), Hattr. by cbn.
Qed.

End Facts.

(** ** The statements at concrete proxies *)

Import LazyExamples.

Lemma value_invocations_witness :
  (accesses is_AttributeError getattr_int 3 (fresh ticket () true 0)).1
  = [inl (Some 0); inl (Some 0); inl (Some 0)] ∧
  calls (accesses is_AttributeError getattr_int 3 (fresh ticket () true 0)).2 = 1 ∧
  calls (accesses is_AttributeError getattr_int 3 (fresh ticket () false 0)).2 = 3.
Proof.
  destruct (value_invocations is_AttributeError getattr_int ticket () 0 3
              ltac:(lia)) as [Henabled Hdisabled].
  destruct (Henabled 0 1 eq_refl) as [Hres Hcalls].
  split; [exact Hres|]. split; [exact Hcalls | exact Hdisabled].
Defined.

(** With the cache enabled and a producer that returns [None], two
    accesses invoke the producer twice, not once. *)
Lemma value_invocations_None :
  (accesses is_AttributeError getattr_int 2 (fresh nothing () true 0)).1
  = [inl None; inl None] ∧
  calls (accesses is_AttributeError getattr_int 2 (fresh nothing () true 0)).2 = 2 ∧
  calls (accesses is_AttributeError getattr_int 2 (fresh nothing () true 0)).2 ≠ 1.
Proof. vm_compute. repeat split; discriminate. Qed.

Lemma attribute_error_remembered_witness :
  (value is_AttributeError (fresh shy () true 0)).1 = inr (AttributeError "first") ∧
  _attribute_error (proxy (value is_AttributeError (fresh shy () true 0)).2)
  = Some (AttributeError "first") ∧
  _value (proxy (value is_AttributeError (fresh shy () true 0)).2) = None ∧
  run is_AttributeError getattr_int [Getattr "real"; Getattr "imag"]
    (value is_AttributeError (fresh shy () true 0)).2
  = ([inr (AttributeError "first"); inr (AttributeError "first")],
     (value is_AttributeError (fresh shy () true 0)).2) ∧
  value is_AttributeError (fresh broken () true 0)
  = (inr (ValueError "bad"), mkState (__init__ broken () true) 1 1).
Proof.
  destruct (@attribute_error_remembered nat nat unit py_exn is_AttributeError getattr_int)
    as (Hfail & _ & _ & Hlookups & Hother).
  destruct (Hfail (fresh shy () true 0) (AttributeError "first") 1
              eq_refl eq_refl eq_refl) as (Hval & Herr & Hslot).
  split; [by rewrite Hval|]. split; [exact Herr|]. split; [exact Hslot|].
  split.
  - exact (Hlookups ["real"; "imag"] _ (AttributeError "first") Herr).
  - exact (Hother (fresh broken () true 0) (ValueError "bad") 1
             eq_refl eq_refl eq_refl).
Defined.


(** [shy] fails once; the value realized afterwards does not answer the
    lookups. *)
Lemma remembered_error_never_cleared_witness :
  (run is_AttributeError getattr_int [Value; Value; Getattr "real"]
     (fresh shy () true 0)).1
  = [inr (AttributeError "first"); inl (Some 1); inr (AttributeError "first")] ∧
  _value (proxy (run is_AttributeError getattr_int [Value; Value; Getattr "real"]
                   (fresh shy () true 0)).2) = Some 1 ∧
  ∀ name,
    __getattr__ is_AttributeError getattr_int
      (run is_AttributeError getattr_int [Value; Getattr "real"]
         (value is_AttributeError (fresh shy () true 0)).2).2 name
    = (inr (AttributeError "first"),
       (run is_AttributeError getattr_int [Value; Getattr "real"]
          (value is_AttributeError (fresh shy () true 0)).2).2).
Proof.
  split; [reflexivity|]. split; [reflexivity|].
  destruct (@remembered_error_never_cleared nat nat unit py_exn is_AttributeError getattr_int)
    as (_ & _ & Hkeeps & _).
  apply (Hkeeps [Value; Getattr "real"]
           (value is_AttributeError (fresh shy () true 0)).2
           (AttributeError "first") eq_refl).
  intros e' Hin _.
  vm_compute in Hin.
  repeat (apply elem_of_cons in Hin as [Hin|Hin]; [congruence|]).
  by apply elem_of_nil in Hin.
Defined.

(** [flaky] fails on two different missing attributes before it works:
    the lookup after the value is realized raises the second error, not
    the one remembered first. *)
Lemma remembered_error_replaced :
  (run is_AttributeError getattr_int [Value; Value; Value; Getattr "real"]
     (fresh flaky () true 0)).1
  = [inr (AttributeError "first"); inr (AttributeError "second");
     inl (Some 2); inr (AttributeError "second")] ∧
  _value (proxy (run is_AttributeError getattr_int
                   [Value; Value; Value; Getattr "real"]
                   (fresh flaky () true 0)).2) = Some 2 ∧
  (run is_AttributeError getattr_int [Value; Value; Value; Getattr "real"]
     (fresh flaky () true 0)).1 !! 3
  ≠ Some (inr (AttributeError "first")).
Proof. vm_compute. repeat split; discriminate. Qed.

End LazyFacts.

(** ** More on catalogs *)

Module CatalogsMoreFacts.
Import Catalogs CatalogsMore CatalogsFacts.

(** [merge] of a [NullTranslations] object does nothing. *)
Lemma merge_NullTranslations (h : heap) self other s o :
  h !! self = Some s → h !! other = Some o → klass o = NullTranslations →
  merge h self other = Some (h, self).
Proof.
  intros Hs Ho Hk. unfold merge. rewrite Hs, Ho. cbn [mbind option_bind].
  by rewrite Hk.
Qed.

(** X1: an incoming [NullTranslations] is not catalog-like: [merge]
    leaves every object as it is and returns [self], and so does
    [add(other, merge=True)] when the domains are equal. *)
Theorem merge_ignores_NullTranslations fuel (h : heap) self other s o :
  h !! self = Some s → h !! other = Some o → klass o = NullTranslations →
  merge h self other = Some (h, self) ∧
  (domain o = domain s → add fuel h self other true = Some (h, self)).
Proof.
  intros Hs Ho Hk. split; [by apply (merge_NullTranslations h self other s o)|].
  intros Hd. unfold add. rewrite Hs, Ho. cbn [mbind option_bind].
  rewrite (bool_decide_eq_true_2 _ Hd). cbn [andb].
  by apply (merge_NullTranslations h self other s o).
Qed.

(** X2: merging the same catalog a second time changes no message of
    [self], but appends the files of the incoming catalog once more. *)
Theorem merge_twice (h : heap) self other s o :
  h !! self = Some s → h !! other = Some o → klass o = Translations →
  self ≠ other →
  ∃ h1 h2 s1 s2,
    merge h self other = Some (h1, self) ∧ h1 !! self = Some s1 ∧
    merge h1 self other = Some (h2, self) ∧ h2 !! self = Some s2 ∧
    _catalog s1 = _catalog o ∪ _catalog s ∧
    _catalog s2 = _catalog s1 ∧
    files s1 = (files s ++ files o)%list ∧
    files s2 = (files s ++ files o ++ files o)%list.
Proof.
  intros Hs Ho Hk Hne.
  set (s1 := set_files (files s ++ files o) (set_catalog (_catalog o ∪ _catalog s) s)).
  set (h1 := <[self := s1]> h).
  assert (h1 !! self = Some s1) as Hs1 by apply lookup_insert_eq.
  assert (h1 !! other = Some o) as Ho1 by (unfold h1; by rewrite lookup_insert_ne).
  set (s2 := set_files (files s1 ++ files o) (set_catalog (_catalog o ∪ _catalog s1) s1)).
  exists h1, (<[self := s2]> h1), s1, s2.
  split; [by apply merge_Translations|]. split; [done|].
  split; [by apply merge_Translations|]. split; [apply lookup_insert_eq|].
  split; [done|]. split; [|split; [done|]].
  - cbn [s2 s1 set_files set_catalog _catalog].
    apply map_eq. intros k. rewrite !lookup_union.
    by destruct (_catalog o !! k), (_catalog s !! k).
  - cbn [s2 s1 set_files set_catalog files]. by rewrite <- app_assoc.
Qed.

(** X3: [add(other, merge=True)] with the domain of [other] already
    registered calls [merge] on the registered catalog.  Where that one is
    a [Translations], a [Translations] [other] is merged into it and [add]
    returns [self]; the registration stays, and [other] is neither
    registered nor given a fallback.  Where the registered catalog is a
    [NullTranslations], which has no [merge], [add] raises, whatever
    [other] is. *)
Theorem add_merges_into_registered fuel (h : heap) self other s o existing e :
  h !! self = Some s → h !! other = Some o →
  domain o ≠ domain s →
  _domains s !! domain o = Some existing → h !! existing = Some e →
  (klass e = Translations → klass o = Translations →
   ∃ h',
     add fuel h self other true = Some (h', self) ∧
     h' = <[existing := set_files (files e ++ files o)
                          (set_catalog (_catalog o ∪ _catalog e) e)]> h ∧
     (_domains <$> h' !! self) = Some (_domains s) ∧
     (_fallback <$> h' !! other) = Some (_fallback o)) ∧
  (klass e = NullTranslations → add fuel h self other true = None).
Proof.
  intros Hs Ho Hdom Hreg He.
  assert (add fuel h self other true
          = match klass e with
            | Translations => r ← merge h existing other; Some (r.1, self)
            | NullTranslations => None
            end) as Hadd.
  { unfold add. rewrite Hs, Ho. cbn [mbind option_bind].
    rewrite (bool_decide_eq_false_2 _ Hdom). cbn [andb]. rewrite Hreg, He.
    reflexivity. }
  split.
  - intros Hke Hk. eexists. split; [|split; [reflexivity|]].
    + rewrite Hadd, Hke.
      by rewrite (merge_Translations h existing other e o He Ho Hk).
    + split.
      * destruct (decide (existing = self)) as [->|Hne].
        -- rewrite lookup_insert_eq. cbn. congruence.
        -- by rewrite lookup_insert_ne, Hs.
      * destruct (decide (existing = other)) as [->|Hne].
        -- rewrite lookup_insert_eq. cbn. congruence.
        -- by rewrite lookup_insert_ne, Ho.
  - intros Hke. by rewrite Hadd, Hke.
Qed.

(** *** The registering branch of [add] *)

(** Every object on a chain is allocated. *)
Lemma fallbacks_allocated (h : heap) a l :
  fallbacks h a l → ∀ y, y ∈ l → is_Some (h !! y).
Proof.
  induction 1 as [a o Ha Hfb | a o b l Ha Hfb Hrest IH]; intros y Hy.
  - apply list_elem_of_singleton in Hy as ->. by exists o.
  - apply elem_of_cons in Hy as [->|Hy]; [by exists o | by apply IH].
Qed.

(** [add] registers when it is told not to merge, or when the domain is
    neither that of [self] nor registered.  The store it leaves: the last
    catalog [z] of the chain of [other] is linked to [self], and [self]
    has [other] under the domain of [other]. *)
Lemma add_registers (fuel : nat) (h : heap) self other s o lo (merge' : bool) :
  h !! self = Some s → h !! other = Some o →
  merge' = false ∨ (domain o ≠ domain s ∧ _domains s !! domain o = None) →
  fallbacks h other lo → (length lo ≤ fuel)%nat →
  ∃ h' s' z oz,
    add fuel h self other merge' = Some (h', self) ∧
    h' !! self = Some s' ∧
    _domains s' = <[domain o := other]> (_domains s) ∧
    last lo = Some z ∧ h !! z = Some oz ∧ _fallback oz = None ∧
    (_fallback <$> h' !! z = Some (Some self)) ∧
    (∀ x, x ≠ z → _fallback <$> h' !! x = _fallback <$> h !! x) ∧
    (∀ x, _catalog <$> h' !! x = _catalog <$> h !! x) ∧
    (∀ x, plural <$> h' !! x = plural <$> h !! x).
Proof.
  intros Hs Ho Hbranch Hch Hfuel.
  destruct (add_fallback_chain h other lo self Hch fuel Hfuel)
    as (z & oz & Hlast & Hz & Hnone & Hadd).
  assert (∃ s1, <[z := set_fallback (Some self) oz]> h !! self = Some s1
                ∧ _domains s1 = _domains s) as (s1 & Hs1 & Hd1).
  { destruct (decide (z = self)) as [->|Hne].
    - rewrite lookup_insert_eq. eexists; split; [done|]. cbn. congruence.
    - rewrite lookup_insert_ne by done. by exists s. }
  destruct (add_unregistered_fields h self z oz s1
              (<[domain o := other]> (_domains s1)) Hz Hs1)
    as (Hfz & Hfx & Hcat & Hpl).
  eexists _, _, z, oz. split.
  - unfold add. rewrite Hs, Ho. cbn [mbind option_bind].
    destruct Hbranch as [->|[Hdom Hunreg]].
    + cbn [andb]. rewrite Hadd. cbn [mbind option_bind].
      rewrite Hs1. cbn [mbind option_bind]. reflexivity.
    + rewrite (bool_decide_eq_false_2 _ Hdom), andb_false_r, Hunreg, Hadd.
      cbn [mbind option_bind]. rewrite Hs1. cbn [mbind option_bind].
      by destruct merge'.
  - split; [apply lookup_insert_eq|].
    split; [cbn; by rewrite Hd1|]. done.
Qed.

(** X4: [add(other, merge=False)] never merges: whatever the domain of
    [other], its own or one registered before, [other] itself becomes the
    catalog of that domain, [self] is appended to the fallback chain of
    [other], and no mapping of any catalog changes. *)
Theorem add_without_merge_registers (fuel : nat) (h : heap) self other s o lo :
  h !! self = Some s → h !! other = Some o →
  fallbacks h other lo → (length lo ≤ fuel)%nat →
  ∃ h' s' z,
    add fuel h self other false = Some (h', self) ∧
    h' !! self = Some s' ∧
    _domains s' = <[domain o := other]> (_domains s) ∧
    _domains s' !! domain o = Some other ∧
    last lo = Some z ∧
    (_fallback <$> h' !! z = Some (Some self)) ∧
    (∀ x, _catalog <$> h' !! x = _catalog <$> h !! x).
Proof.
  intros Hs Ho Hch Hfuel.
  destruct (add_registers fuel h self other s o lo false Hs Ho (or_introl eq_refl)
              Hch Hfuel)
    as (h' & s' & z & oz & Hadd & Hs' & Hd & Hlast & _ & _ & Hfz & _ & Hcat & _).
  exists h', s', z. do 3 (split; [done|]).
  split; [by rewrite Hd, lookup_insert_eq | done].
Qed.

(** A lookup only reads, along the chain, what [probe] reads and the
    links. *)
Lemma resolve_agree probe dflt (h h' : heap) a l :
  fallbacks h a l →
  (∀ y, y ∈ l → ∃ o o', h !! y = Some o ∧ h' !! y = Some o' ∧
                        probe o' = probe o ∧ _fallback o' = _fallback o) →
  ∀ k, resolve probe dflt k h' a = resolve probe dflt k h a.
Proof.
  induction 1 as [a o Ha Hfb | a o b l Ha Hfb Hrest IH]; intros Hag k;
    destruct (Hag a ltac:(left)) as (o1 & o' & Ho1 & Ho' & Hp & Hf);
    assert (o1 = o) as -> by congruence;
    (destruct k as [|k]; [reflexivity|]);
    cbn [resolve]; rewrite Ha, Ho'; cbn [mbind option_bind]; rewrite Hp, Hf, Hfb.
  - reflexivity.
  - destruct (probe o); [reflexivity|]. apply IH.
    intros y Hy. apply Hag. by right.
Qed.

(** X5: a catalog that [add] registers is reached by the domain-qualified
    lookups only: where the fallback chains of [self] and [other] share no
    catalog, [pgettext] and [npgettext] on [self] return after the [add]
    what they returned before, whatever [other] holds. *)
Theorem add_keeps_unqualified_lookups (fuel : nat) (h : heap) self other s o
    lo ls (merge' : bool) :
  h !! self = Some s → h !! other = Some o →
  merge' = false ∨ (domain o ≠ domain s ∧ _domains s !! domain o = None) →
  fallbacks h other lo → (length lo ≤ fuel)%nat →
  fallbacks h self ls → (∀ x, x ∈ lo → x ∉ ls) →
  ∃ h',
    add fuel h self other merge' = Some (h', self) ∧
    (∀ fuel' context message,
       pgettext fuel' h' self context message
       = pgettext fuel' h self context message) ∧
    (∀ fuel' context singular plural' num,
       npgettext fuel' h' self context singular plural' num
       = npgettext fuel' h self context singular plural' num).
Proof.
  intros Hs Ho Hbranch Hch Hfuel Hls Hdisj.
  destruct (add_registers fuel h self other s o lo merge' Hs Ho Hbranch Hch Hfuel)
    as (h' & s' & z & oz & Hadd & Hs' & Hd & Hlast & Hz & Hnone & Hfz & Hfx & Hcat & Hpl).
  exists h'. split; [done|].
  assert (z ∈ lo) as Hzlo by (by apply last_Some_elem_of).
  assert (∀ y, y ∈ ls →
            ∃ oy oy', h !! y = Some oy ∧ h' !! y = Some oy' ∧
                      _catalog oy' = _catalog oy ∧ plural oy' = plural oy ∧
                      _fallback oy' = _fallback oy) as Hsame.
  { intros y Hy.
    destruct (fallbacks_allocated h self ls Hls y Hy) as [oy Hoy].
    assert (y ≠ z) as Hne by (intros ->; by apply (Hdisj z)).
    pose proof (Hcat y) as Hc. pose proof (Hpl y) as Hp. pose proof (Hfx y Hne) as Hf.
    rewrite Hoy in Hc, Hp, Hf.
    destruct (h' !! y) as [oy'|]; [|discriminate].
    exists oy, oy'. cbn in Hc, Hp, Hf. repeat split; congruence. }
  split.
  - intros fuel' context message. rewrite !pgettext_resolve.
    apply (resolve_agree _ _ h h' self ls Hls).
    intros y Hy. destruct (Hsame y Hy) as (oy & oy' & H1 & H2 & Hc & Hp & Hf).
    exists oy, oy'. by rewrite Hc.
  - intros fuel' context singular plural' num. rewrite !npgettext_resolve.
    apply (resolve_agree _ _ h h' self ls Hls).
    intros y Hy. destruct (Hsame y Hy) as (oy & oy' & H1 & H2 & Hc & Hp & Hf).
    exists oy, oy'. by rewrite Hc, Hp.
Qed.

(** X6: after [add] registered [other], the domain-qualified lookups on
    [self] with the domain of [other] return the entries of [other], also
    for a key that [self] translates itself. *)
Theorem add_routes_domain_lookups (fuel : nat) (h : heap) self other s o lo
    (merge' : bool) :
  h !! self = Some s → h !! other = Some o →
  merge' = false ∨ (domain o ≠ domain s ∧ _domains s !! domain o = None) →
  fallbacks h other lo → (length lo ≤ fuel)%nat →
  ∃ h',
    add fuel h self other merge' = Some (h', self) ∧
    (∀ fuel' context message v,
       _catalog o !! KMsg (context +:+ String "004"%char message) = Some v →
       dpgettext (S fuel') h' self (domain o) context message = Some v) ∧
    (∀ fuel' context singular plural' num v,
       _catalog o !! KPlural (context +:+ String "004"%char singular) (plural o num)
       = Some v →
       dnpgettext (S fuel') h' self (domain o) context singular plural' num
       = Some v).
Proof.
  intros Hs Ho Hbranch Hch Hfuel.
  destruct (add_registers fuel h self other s o lo merge' Hs Ho Hbranch Hch Hfuel)
    as (h' & s' & z & oz & Hadd & Hs' & Hd & Hlast & Hz & Hnone & Hfz & Hfx & Hcat & Hpl).
  exists h'. split; [done|].
  pose proof (Hcat other) as Hc. pose proof (Hpl other) as Hp.
  rewrite Ho in Hc, Hp.
  destruct (h' !! other) as [o'|] eqn:Ho'; [|discriminate].
  cbn in Hc, Hp. injection Hc as Hc. injection Hp as Hp.
  split.
  - intros fuel' context message v Hv.
    unfold dpgettext, domains_get. rewrite Hs'. cbn [mbind option_bind].
    rewrite Hd, lookup_insert_eq.
    change (default self (Some other)) with other.
    rewrite pgettext_unfold, Ho'. cbn [mbind option_bind]. by rewrite Hc, Hv.
  - intros fuel' context singular plural' num v Hv.
    unfold dnpgettext, domains_get. rewrite Hs'. cbn [mbind option_bind].
    rewrite Hd, lookup_insert_eq.
    change (default self (Some other)) with other.
    rewrite npgettext_unfold, Ho'. cbn [mbind option_bind]. by rewrite Hc, Hp, Hv.
Qed.

(** X7: adding the same catalog twice without merging ties a knot.  The
    first [add] makes [self] the fallback of [other]; the second walks
    from [other] to the end of that chain, which is [self], and makes
    [self] its own fallback.  From then on a lookup on [self] for a key
    that [self] lacks never returns, whatever the recursion budget. *)
Theorem add_twice_without_merge_cycles (h : heap) self other s o (fuel1 fuel2 : nat) :
  h !! self = Some s → h !! other = Some o → self ≠ other →
  _fallback s = None → _fallback o = None →
  (1 ≤ fuel1)%nat → (2 ≤ fuel2)%nat →
  ∃ h1 h2 s2,
    add fuel1 h self other false = Some (h1, self) ∧
    add fuel2 h1 self other false = Some (h2, self) ∧
    h2 !! self = Some s2 ∧ _fallback s2 = Some self ∧
    (∀ fuel context message,
       _catalog s !! KMsg (context +:+ String "004"%char message) = None →
       pgettext fuel h2 self context message = None) ∧
    (∀ fuel context singular plural' num,
       _catalog s !! KPlural (context +:+ String "004"%char singular) (plural s num)
       = None →
       npgettext fuel h2 self context singular plural' num = None).
Proof.
  intros Hs Ho Hne Hfs Hfo Hfuel1 Hfuel2.
  destruct (add_registers fuel1 h self other s o [other] false Hs Ho
              (or_introl eq_refl) (fallbacks_last h other o Ho Hfo) Hfuel1)
    as (h1 & s1 & z & oz & Hadd1 & Hs1 & _ & Hlast & _ & _ & Hfz & Hfx & Hcat & Hpl).
  injection Hlast as <-.
  destruct (h1 !! other) as [o1|] eqn:Ho1; [|discriminate].
  assert (_fallback o1 = Some self) as Hfo1 by (cbn in Hfz; congruence).
  assert (_fallback s1 = None) as Hfs1.
  { pose proof (Hfx self Hne) as Hf. rewrite Hs1, Hs in Hf. cbn in Hf. congruence. }
  assert (fallbacks h1 other [other; self]) as Hch1.
  { apply (fallbacks_next h1 other o1 self); [done..|].
    by apply (fallbacks_last h1 self s1). }
  destruct (add_registers fuel2 h1 self other s1 o1 [other; self] false Hs1 Ho1
              (or_introl eq_refl) Hch1 Hfuel2)
    as (h2 & s2 & z2 & oz2 & Hadd2 & Hs2 & _ & Hlast2 & _ & _ & Hfz2 & _ & Hcat2 & Hpl2).
  injection Hlast2 as <-.
  assert (_fallback s2 = Some self) as Hfs2
    by (rewrite Hs2 in Hfz2; cbn in Hfz2; congruence).
  assert (_catalog s2 = _catalog s) as Hc.
  { pose proof (Hcat2 self) as H2. pose proof (Hcat self) as H1.
    rewrite Hs2, Hs1 in H2. rewrite Hs1, Hs in H1. cbn in H1, H2. congruence. }
  assert (plural s2 = plural s) as Hp.
  { pose proof (Hpl2 self) as H2. pose proof (Hpl self) as H1.
    rewrite Hs2, Hs1 in H2. rewrite Hs1, Hs in H1. cbn in H1, H2. congruence. }
  exists h1, h2, s2. do 4 (split; [done|]). split.
  - intros fuel context message Hmiss.
    induction fuel as [|fuel IH]; [reflexivity|].
    rewrite pgettext_unfold, Hs2. cbn [mbind option_bind].
    by rewrite Hc, Hmiss, Hfs2.
  - intros fuel context singular plural' num Hmiss.
    induction fuel as [|fuel IH]; [reflexivity|].
    rewrite npgettext_unfold, Hs2. cbn [mbind option_bind].
    by rewrite Hc, Hp, Hmiss, Hfs2.
Qed.

(** What a lookup along a finite chain returns. *)
Lemma resolve_result probe dflt (h : heap) a l :
  fallbacks h a l → ∀ k : nat, (length l ≤ k)%nat →
  ∃ r, resolve probe dflt k h a = Some r ∧
       ((r = dflt ∧ ∀ x ox, x ∈ l → h !! x = Some ox → probe ox = None) ∨
        (∃ b ob, b ∈ l ∧ h !! b = Some ob ∧ probe ob = Some r)).
Proof.
  induction 1 as [a o Ha Hfb | a o b l Ha Hfb Hrest IH]; intros k Hk;
    (destruct k as [|k]; [simpl in Hk; lia|]);
    cbn [resolve]; rewrite Ha; cbn [mbind option_bind];
    destruct (probe o) as [t|] eqn:Hp.
  - exists t. split; [done|]. right. exists a, o. split; [left|done].
  - rewrite Hfb. exists dflt. split; [done|]. left. split; [done|].
    intros x ox Hx Hox. apply list_elem_of_singleton in Hx as ->. congruence.
  - exists t. split; [done|]. right. exists a, o. split; [left|done].
  - rewrite Hfb. destruct (IH k) as (r & Hr & Hcases); [simpl in Hk; lia|].
    exists r. split; [done|].
    destruct Hcases as [[-> Hall]|(b' & ob & Hb & Hob & Hhit)].
    + left. split; [done|]. intros x ox Hx Hox.
      apply elem_of_cons in Hx as [->|Hx]; [congruence | by apply (Hall x)].
    + right. exists b', ob. split; [by right | done].
Qed.

(** X8: on a finite fallback chain, with one unit of recursion budget per
    catalog, [pgettext] and [npgettext] return: either a string stored
    under the key by a catalog of the chain, or, when no catalog of the
    chain has the key, the message id (the singular or the plural by
    [num == 1]). *)
Theorem lookups_return_on_finite_chain (h : heap) a l (fuel : nat) :
  fallbacks h a l → (length l ≤ fuel)%nat →
  (∀ context message,
     ∃ r, pgettext fuel h a context message = Some r ∧
       ((r = message ∧
         ∀ x ox, x ∈ l → h !! x = Some ox →
           _catalog ox !! KMsg (context +:+ String "004"%char message) = None) ∨
        (∃ b ob, b ∈ l ∧ h !! b = Some ob ∧
           _catalog ob !! KMsg (context +:+ String "004"%char message) = Some r))) ∧
  (∀ context singular plural' num,
     ∃ r, npgettext fuel h a context singular plural' num = Some r ∧
       ((r = (if bool_decide (num = 1%Z) then singular else plural') ∧
         ∀ x ox, x ∈ l → h !! x = Some ox →
           _catalog ox !! KPlural (context +:+ String "004"%char singular)
                                  (plural ox num) = None) ∨
        (∃ b ob, b ∈ l ∧ h !! b = Some ob ∧
           _catalog ob !! KPlural (context +:+ String "004"%char singular)
                                  (plural ob num) = Some r))).
Proof.
  intros Hch Hfuel. split.
  - intros context message. rewrite pgettext_resolve.
    apply (resolve_result _ _ h a l Hch fuel Hfuel).
  - intros context singular plural' num. rewrite npgettext_resolve.
    apply (resolve_result _ _ h a l Hch fuel Hfuel).
Qed.

(** X9: the [u]-prefixed lookups return what the plain ones return. *)
Theorem u_lookups_agree :
  (∀ fuel (h : heap) self context message,
     upgettext fuel h self context message = pgettext fuel h self context message) ∧
  (∀ fuel (h : heap) self context singular plural' num,
     unpgettext fuel h self context singular plural' num
     = npgettext fuel h self context singular plural' num) ∧
  (∀ fuel (h : heap) self domain' context message,
     udpgettext fuel h self domain' context message
     = dpgettext fuel h self domain' context message) ∧
  (∀ fuel (h : heap) self domain' context singular plural' num,
     udnpgettext fuel h self domain' context singular plural' num
     = dnpgettext fuel h self domain' context singular plural' num).
Proof.
  assert (∀ fuel (h : heap) self context message,
            upgettext fuel h self context message
            = pgettext fuel h self context message) as Hu.
  { induction fuel as [|fuel IH]; intros h self context message; [reflexivity|].
    cbn [upgettext pgettext].
    destruct (h !! self) as [o|]; [|reflexivity]. cbn [mbind option_bind].
    destruct (percent CONTEXT_ENCODING [context; message]) as [k|]; [|reflexivity].
    cbn [mbind option_bind].
    destruct (_catalog o !! KMsg k); [reflexivity|].
    destruct (_fallback o); [apply IH | reflexivity]. }
  assert (∀ fuel (h : heap) self context singular plural' num,
            unpgettext fuel h self context singular plural' num
            = npgettext fuel h self context singular plural' num) as Hun.
  { induction fuel as [|fuel IH]; intros h self context singular plural' num;
      [reflexivity|].
    cbn [unpgettext npgettext].
    destruct (h !! self) as [o|]; [|reflexivity]. cbn [mbind option_bind].
    destruct (percent CONTEXT_ENCODING [context; singular]) as [k|]; [|reflexivity].
    cbn [mbind option_bind].
    destruct (_catalog o !! KPlural k (plural o num)); [reflexivity|].
    destruct (_fallback o); [apply IH | reflexivity]. }
  split; [exact Hu|]. split; [exact Hun|]. split.
  - intros. unfold udpgettext, dpgettext.
    destruct (h !! self); [apply Hu | reflexivity].
  - intros. unfold udnpgettext, dnpgettext.
    destruct (h !! self); [apply Hun | reflexivity].
Qed.

(** *** What [add] and [merge] keep *)

Lemma no_less_refl o : no_less o o.
Proof. by repeat split. Qed.

Lemma no_less_trans o1 o2 o3 : no_less o1 o2 → no_less o2 o3 → no_less o1 o3.
Proof.
  intros (Hk1 & Hd1 & Hp1 & Hc1 & Hr1) (Hk2 & Hd2 & Hp2 & Hc2 & Hr2).
  repeat split; try congruence; set_solver.
Qed.

(** Overwriting one object by one that is [no_less]. *)
Lemma insert_no_less (h : heap) z oz o' :
  h !! z = Some oz → no_less oz o' →
  (∀ x ox, h !! x = Some ox → ∃ ox', <[z := o']> h !! x = Some ox' ∧ no_less ox ox') ∧
  (∀ x, h !! x = None → <[z := o']> h !! x = None).
Proof.
  intros Hz Hle. split.
  - intros x ox Hx. destruct (decide (z = x)) as [->|Hne].
    + rewrite lookup_insert_eq. exists o'. split; [done|]. congruence.
    + rewrite lookup_insert_ne by done. exists ox. split; [done|apply no_less_refl].
  - intros x Hx. rewrite lookup_insert_ne; [done|]. intros ->. congruence.
Qed.

Lemma add_fallback_inv (fuel : nat) :
  ∀ (h : heap) a fb h1,
    add_fallback fuel h a fb = Some h1 →
    ∃ z oz, h !! z = Some oz ∧ h1 = <[z := set_fallback (Some fb) oz]> h.
Proof.
  induction fuel as [|fuel IH]; intros h a fb h1 Hadd; [discriminate|].
  cbn [add_fallback] in Hadd.
  destruct (h !! a) as [o|] eqn:Ha; [|discriminate]. cbn [mbind option_bind] in Hadd.
  destruct (_fallback o) as [b|].
  - by apply (IH h b fb).
  - injection Hadd as <-. by exists a, o.
Qed.

Lemma merge_inv (h : heap) a b h' r :
  merge h a b = Some (h', r) →
  r = a ∧
  (∀ x ox, h !! x = Some ox → ∃ ox', h' !! x = Some ox' ∧ no_less ox ox') ∧
  (∀ x, h !! x = None → h' !! x = None).
Proof.
  intros Hm.
  destruct (h !! a) as [oa|] eqn:Ha;
    [|unfold merge in Hm; by rewrite Ha in Hm].
  destruct (h !! b) as [ob|] eqn:Hb;
    [|unfold merge in Hm; by rewrite Ha, Hb in Hm].
  destruct (klass ob) eqn:Hk.
  - rewrite (merge_NullTranslations h a b oa ob Ha Hb Hk) in Hm.
    injection Hm as <- <-. split; [done|]. split; [|done].
    intros x ox Hx. exists ox. split; [done|apply no_less_refl].
  - rewrite (merge_Translations h a b oa ob Ha Hb Hk) in Hm.
    injection Hm as <- <-. split; [done|].
    apply (insert_no_less h a oa); [done|].
    repeat split; try done. cbn. rewrite dom_union_L. set_solver.
Qed.

(** X10: [add] returns [self] and only ever adds.  Every object of the
    store is still there with its class, its domain and its plural
    selector; no key of a message mapping and no registered domain is
    lost; no object is created. *)
Theorem add_only_adds (fuel : nat) (h : heap) self other (merge' : bool) h' r :
  add fuel h self other merge' = Some (h', r) →
  r = self ∧
  (∀ x ox, h !! x = Some ox → ∃ ox', h' !! x = Some ox' ∧ no_less ox ox') ∧
  (∀ x, h !! x = None → h' !! x = None).
Proof.
  unfold add. intros Hadd.
  destruct (h !! self) as [s|] eqn:Hs; [|discriminate].
  destruct (h !! other) as [o|] eqn:Ho; [|discriminate].
  cbn [mbind option_bind] in Hadd.
  destruct (merge' && bool_decide (domain o = domain s)) eqn:Hsame.
  { by apply merge_inv in Hadd. }
  assert (∀ h1 s1,
            add_fallback fuel h other self = Some h1 → h1 !! self = Some s1 →
            Some (<[self := set_domains (<[domain o := other]> (_domains s1)) s1]> h1,
                  self) = Some (h', r) →
            r = self ∧
            (∀ x ox, h !! x = Some ox → ∃ ox', h' !! x = Some ox' ∧ no_less ox ox') ∧
            (∀ x, h !! x = None → h' !! x = None)) as Hreg.
  { intros h1 s1 Hfb Hs1 Heq. injection Heq as <- <-. split; [done|].
    destruct (add_fallback_inv fuel h other self h1 Hfb) as (z & oz & Hz & ->).
    destruct (insert_no_less h z oz (set_fallback (Some self) oz) Hz) as [Hin1 Hout1];
      [by repeat split|].
    destruct (insert_no_less (<[z := set_fallback (Some self) oz]> h) self s1
                (set_domains (<[domain o := other]> (_domains s1)) s1) Hs1)
      as [Hin2 Hout2].
    { repeat split; try done. cbn. rewrite dom_insert_L. set_solver. }
    split.
    - intros x ox Hx. destruct (Hin1 x ox Hx) as (ox1 & Hx1 & Hle1).
      destruct (Hin2 x ox1 Hx1) as (ox2 & Hx2 & Hle2).
      exists ox2. split; [done|]. by apply (no_less_trans ox ox1 ox2).
    - intros x Hx. apply Hout2. by apply Hout1. }
  assert ((h1 ← add_fallback fuel h other self;
           s1 ← h1 !! self;
           Some (<[self := set_domains (<[domain o := other]> (_domains s1)) s1]> h1,
                 self)) = Some (h', r) →
          r = self ∧
          (∀ x ox, h !! x = Some ox → ∃ ox', h' !! x = Some ox' ∧ no_less ox ox') ∧
          (∀ x, h !! x = None → h' !! x = None)) as Hreg'.
  { intros Heq.
    destruct (add_fallback fuel h other self) as [h1|] eqn:Hfb; [|discriminate].
    cbn [mbind option_bind] in Heq.
    destruct (h1 !! self) as [s1|] eqn:Hs1; [|discriminate].
    by apply (Hreg h1 s1). }
  destruct merge'; [|by apply Hreg'].
  destruct (_domains s !! domain o) as [existing|]; [|by apply Hreg'].
  destruct (h !! existing) as [e|]; [|discriminate].
  cbn [mbind option_bind] in Hadd.
  destruct (klass e); [discriminate|].
  destruct (merge h existing other) as [[h2 r2]|] eqn:Hm; [|discriminate].
  cbn [mbind option_bind fst] in Hadd. injection Hadd as <- <-.
  apply merge_inv in Hm as (_ & Hin & Hout). done.
Qed.

(** X11: the selector that [__init__] installs knows two forms, index 0
    for [num == 1] and index 1 otherwise; under it [npgettext] returns the
    entry of index 0 exactly for [num == 1], and never an entry of another
    index than 0 and 1. *)
Theorem default_plural_two_forms fuel (h : heap) self o
    context singular plural' num v :
  h !! self = Some o → plural o = default_plural →
  _catalog o !! KPlural (context +:+ String "004"%char singular)
                        (if bool_decide (num = 1%Z) then 0%Z else 1%Z) = Some v →
  (default_plural num = 0%Z ↔ num = 1%Z) ∧
  (default_plural num = 0%Z ∨ default_plural num = 1%Z) ∧
  npgettext (S fuel) h self context singular plural' num = Some v.
Proof.
  intros Ho Hpl Hv.
  assert (default_plural num = if bool_decide (num = 1%Z) then 0%Z else 1%Z) as Hdp.
  { unfold default_plural. repeat case_bool_decide; congruence. }
  split; [|split].
  - rewrite Hdp. by case_bool_decide.
  - rewrite Hdp. case_bool_decide; auto.
  - rewrite npgettext_unfold, Ho. cbn [mbind option_bind].
    by rewrite Hpl, Hdp, Hv.
Qed.

Section DeprecatedFacts.

Context {bytes : Type}.
Variable _output_charset : addr → option string.
Variable getpreferredencoding : string.
Variable encode : string → string → option bytes.

Abbreviation output_encoding := (output_encoding _output_charset getpreferredencoding).
Abbreviation lpgettext := (lpgettext _output_charset getpreferredencoding encode).
Abbreviation lnpgettext := (lnpgettext _output_charset getpreferredencoding encode).

Lemma lnpgettext_unfold fuel (h : heap) self context singular plural' num :
  lnpgettext (S fuel) h self context singular plural' num =
  match h !! self with
  | Some o =>
      match _catalog o !! KPlural (context +:+ String "004"%char singular)
                                  (plural o num) with
      | Some tmsg =>
          (["lnpgettext() is deprecated, use npgettext() instead"],
           inr <$> encode (output_encoding self) tmsg)
      | None =>
          match _fallback o with
          | Some fb =>
              ("lnpgettext() is deprecated, use npgettext() instead"
                 :: (lnpgettext fuel h fb context singular plural' num).1,
               (lnpgettext fuel h fb context singular plural' num).2)
          | None =>
              (["lnpgettext() is deprecated, use npgettext() instead"],
               Some (inl (if bool_decide (num = 1%Z) then singular else plural')))
          end
      end
  | None => (["lnpgettext() is deprecated, use npgettext() instead"], None)
  end.
Proof.
  cbn [CatalogsMore.lnpgettext]. rewrite percent_CONTEXT_ENCODING.
  by destruct (h !! self).
Qed.

(** The catalogs that miss each warn and pass the call on. *)
Lemma lnpgettext_skip (h : heap) context singular plural' num pre :
  ∀ a b post k,
    fallbacks h a (pre ++ b :: post) →
    (∀ x ox, x ∈ pre → h !! x = Some ox →
       _catalog ox !! KPlural (context +:+ String "004"%char singular) (plural ox num)
       = None) →
    lnpgettext (length pre + k) h a context singular plural' num
    = ((replicate (length pre)
          "lnpgettext() is deprecated, use npgettext() instead"
        ++ (lnpgettext k h b context singular plural' num).1)%list,
       (lnpgettext k h b context singular plural' num).2).
Proof.
  induction pre as [|x pre IH]; intros a b post k Hch Hmiss.
  - inversion Hch; subst; cbn; by destruct (lnpgettext _ _ _ _ _ _ _).
  - inversion Hch as [a' o Ha Hfb Heq | a' o b' l Ha Hfb Hrest Heq]; subst.
    { by destruct pre. }
    change (length (x :: pre) + k) with (S (length pre + k)).
    rewrite lnpgettext_unfold, Ha, (Hmiss x o), Hfb; [|left|done].
    rewrite (IH b' b post k Hrest); [done|].
    intros y oy Hy. apply Hmiss. by right.
Qed.

(** X12: a byte-string lookup answered by a catalog [b] further down the
    fallback chain.  [lnpgettext] encodes the translation with the output
    charset of [b], the catalog that holds it, and has warned once per
    catalog asked; [lpgettext] encodes with the output charset of the
    catalog it was called on, and warns once. *)
Theorem deprecated_lookups_on_hit (h : heap) a pre b post ob (fuel : nat) :
  fallbacks h a (pre ++ b :: post) → h !! b = Some ob → (length pre < fuel)%nat →
  (∀ context singular plural' num v,
     (∀ x ox, x ∈ pre → h !! x = Some ox →
        _catalog ox !! KPlural (context +:+ String "004"%char singular) (plural ox num)
        = None) →
     _catalog ob !! KPlural (context +:+ String "004"%char singular) (plural ob num)
     = Some v →
     lnpgettext fuel h a context singular plural' num
     = (replicate (S (length pre))
          "lnpgettext() is deprecated, use npgettext() instead",
        inr <$> encode (output_encoding b) v)) ∧
  (∀ context message v,
     (∀ x ox, x ∈ pre → h !! x = Some ox →
        _catalog ox !! KMsg (context +:+ String "004"%char message) = None) →
     _catalog ob !! KMsg (context +:+ String "004"%char message) = Some v →
     lpgettext fuel h a context message
     = (["lpgettext() is deprecated, use pgettext() instead"],
        encode (output_encoding a) v)).
Proof.
  intros Hch Hb Hfuel.
  assert (∃ k, fuel = length pre + S k) as [k ->] by (exists (fuel - S (length pre)); lia).
  split.
  - intros context singular plural' num v Hmiss Hhit.
    rewrite (lnpgettext_skip h context singular plural' num pre a b post (S k) Hch Hmiss).
    rewrite lnpgettext_unfold, Hb, Hhit. cbn [fst snd].
    f_equal. rewrite <- replicate_cons_app. reflexivity.
  - intros context message v Hmiss Hhit.
    unfold CatalogsMore.lpgettext. f_equal.
    rewrite pgettext_resolve.
    rewrite (resolve_skip _ _ h pre a b post (S k) Hch Hmiss).
    cbn [resolve]. rewrite Hb. cbn [mbind option_bind]. by rewrite Hhit.
Qed.

(** X13: a byte-string lookup that no catalog of the chain answers.
    [lnpgettext] returns the singular or the plural as it got it, a [str]
    and not [bytes], after one warning per catalog; [lpgettext] returns
    the message id encoded with the output charset of its catalog, after
    one warning. *)
Theorem deprecated_lookups_on_total_miss (h : heap) a l (fuel : nat) :
  fallbacks h a l → (length l ≤ fuel)%nat →
  (∀ context singular plural' num,
     (∀ x ox, x ∈ l → h !! x = Some ox →
        _catalog ox !! KPlural (context +:+ String "004"%char singular) (plural ox num)
        = None) →
     lnpgettext fuel h a context singular plural' num
     = (replicate (length l) "lnpgettext() is deprecated, use npgettext() instead",
        Some (inl (if bool_decide (num = 1%Z) then singular else plural')))) ∧
  (∀ context message,
     (∀ x ox, x ∈ l → h !! x = Some ox →
        _catalog ox !! KMsg (context +:+ String "004"%char message) = None) →
     lpgettext fuel h a context message
     = (["lpgettext() is deprecated, use pgettext() instead"],
        encode (output_encoding a) message)).
Proof.
  intros Hch Hfuel. split.
  - intros context singular plural' num. revert fuel Hfuel.
    induction Hch as [a o Ha Hfb | a o b l Ha Hfb Hrest IH]; intros fuel Hfuel Hmiss;
      (destruct fuel as [|fuel]; [simpl in Hfuel; lia|]);
      rewrite lnpgettext_unfold, Ha, (Hmiss a o), Hfb; try done; try by left.
    rewrite IH; [done | simpl in Hfuel; lia |].
    intros y oy Hy. apply Hmiss. by right.
  - intros context message Hmiss.
    unfold CatalogsMore.lpgettext. f_equal. rewrite pgettext_resolve.
    destruct (resolve_result
                (λ o, _catalog o !! KMsg (context +:+ String "004"%char message))
                message h a l Hch fuel Hfuel)
      as (r & -> & [[-> _]|(b & ob & Hb & Hob & Hhit)]); [done|].
    by rewrite (Hmiss b ob Hb Hob) in Hhit.
Qed.

End DeprecatedFacts.

(** *** The statements at concrete catalogs *)

Import Examples MoreExamples.

Lemma merge_ignores_NullTranslations_witness :
  merge h_nulls 0 1 = Some (h_nulls, 0) ∧
  add 0 h_nulls 0 1 true = Some (h_nulls, 0).
Proof.
  destruct (merge_ignores_NullTranslations 0 h_nulls 0 1 cat_A null_messages
              eq_refl eq_refl eq_refl) as [Hm Ha].
  split; [exact Hm | exact (Ha eq_refl)].
Defined.

Lemma merge_twice_witness :
  ∃ h1 h2 s2,
    merge h_merge 0 1 = Some (h1, 0) ∧ merge h1 0 1 = Some (h2, 0) ∧
    h2 !! 0 = Some s2 ∧
    _catalog s2 = {[ KMsg "hello" := "yo"; KMsg "bye" := "later" ]} ∧
    files s2 = ["a.mo"; "b.mo"; "b.mo"].
Proof.
  destruct (merge_twice h_merge 0 1 cat_A cat_B eq_refl eq_refl eq_refl
              ltac:(discriminate))
    as (h1 & h2 & s1 & s2 & Hm1 & _ & Hm2 & Hs2 & Hc1 & Hc2 & _ & Hf2).
  exists h1, h2, s2. do 3 (split; [done|]).
  split; [rewrite Hc2, Hc1; by vm_compute | exact Hf2].
Defined.

Lemma add_merges_into_registered_witness :
  (∃ h', add 0 h_registered 0 1 true = Some (h', 0) ∧
         ((λ o, _catalog o !! KMsg menu_File) <$> h' !! 2) = Some (Some "new") ∧
         ((λ o, _catalog o !! KMsg "x") <$> h' !! 2) = Some (Some "y") ∧
         (_domains <$> h' !! 0) = Some {[ Some "extra" := 2 ]} ∧
         (_fallback <$> h' !! 1) = Some None) ∧
  (∀ fuel, add fuel h_unmergeable 0 1 true = None).
Proof.
  destruct (add_merges_into_registered 0 h_registered 0 1
              (set_domains {[ Some "extra" := 2 ]} primary)
              (set_files ["new.mo"]
                 (set_catalog {[ KMsg menu_File := "new" ]}
                    (Translations_init (Some "extra"))))
              2
              (set_fallback (Some 0)
                 (set_files ["old.mo"]
                    (set_catalog {[ KMsg menu_File := "old"; KMsg "x" := "y" ]}
                       (Translations_init (Some "extra")))))
              eq_refl eq_refl ltac:(discriminate) eq_refl eq_refl)
    as [Hmerges _].
  destruct (Hmerges eq_refl eq_refl) as (h' & Hadd & -> & Hd & Hf).
  split.
  - eexists. split; [exact Hadd|].
    split; [by vm_compute|]. split; [by vm_compute|].
    split; [exact Hd | exact Hf].
  - intros fuel.
    destruct (add_merges_into_registered fuel h_unmergeable 0 1
                (set_domains {[ None := 2 ]} primary)
                NullTranslations_init 2 (set_fallback (Some 0) NullTranslations_init)
                eq_refl eq_refl ltac:(discriminate) eq_refl eq_refl)
      as [_ Hraises].
    exact (Hraises eq_refl).
Defined.

Lemma add_without_merge_registers_witness :
  ∃ h' s', add 1 h_merge 0 1 false = Some (h', 0) ∧
           h' !! 0 = Some s' ∧
           _domains s' !! Some "messages" = Some 1 ∧
           (_catalog <$> h' !! 0) = Some {[ KMsg "hello" := "hi" ]}.
Proof.
  destruct (add_without_merge_registers 1 h_merge 0 1 cat_A cat_B [1]
              eq_refl eq_refl
              ltac:(eapply fallbacks_last; reflexivity) ltac:(simpl; lia))
    as (h' & s' & z & Hadd & Hs' & _ & Hreg & _ & _ & Hcat).
  exists h', s'. do 2 (split; [done|]).
  split; [exact Hreg | by rewrite Hcat].
Defined.

Lemma add_keeps_unqualified_lookups_witness :
  ∃ h', add 1 h_two 0 1 true = Some (h', 0) ∧
        pgettext 2 h' 0 "menu" "File" = Some "from self".
Proof.
  pose (o := set_catalog {[ KMsg menu_File := "from extra";
                            KPlural menu_file 1 := "extras" ]}
               (Translations_init (Some "extra"))).
  assert (h_two !! 0 = Some primary) as Hs by reflexivity.
  assert (h_two !! 1 = Some o) as Ho by reflexivity.
  assert (true = false ∨ (domain o ≠ domain primary ∧ _domains primary !! domain o = None))
    as Hbranch by (right; split; [discriminate | reflexivity]).
  assert (fallbacks h_two 1 [1]) as Hlo by (eapply fallbacks_last; reflexivity).
  assert (fallbacks h_two 0 [0]) as Hls by (eapply fallbacks_last; reflexivity).
  assert (∀ x : nat, x ∈ [1] → x ∉ [0]) as Hdisj.
  { intros x Hx. apply list_elem_of_singleton in Hx as ->.
    intros H0. by apply list_elem_of_singleton in H0. }
  destruct (add_keeps_unqualified_lookups 1 h_two 0 1 primary o [1] [0] true
              Hs Ho Hbranch Hlo ltac:(simpl; lia) Hls Hdisj)
    as (h' & Hadd & Hp & _).
  exists h'. split; [exact Hadd|]. by rewrite Hp.
Defined.

Lemma add_routes_domain_lookups_witness :
  ∃ h', add 1 h_two 0 1 true = Some (h', 0) ∧
        dpgettext 1 h' 0 (Some "extra") "menu" "File" = Some "from extra" ∧
        dnpgettext 1 h' 0 (Some "extra") "menu" "file" "files" 3 = Some "extras".
Proof.
  pose (o := set_catalog {[ KMsg menu_File := "from extra";
                            KPlural menu_file 1 := "extras" ]}
               (Translations_init (Some "extra"))).
  assert (h_two !! 0 = Some primary) as Hs by reflexivity.
  assert (h_two !! 1 = Some o) as Ho by reflexivity.
  assert (true = false ∨ (domain o ≠ domain primary ∧ _domains primary !! domain o = None))
    as Hbranch by (right; split; [discriminate | reflexivity]).
  assert (fallbacks h_two 1 [1]) as Hlo by (eapply fallbacks_last; reflexivity).
  destruct (add_routes_domain_lookups 1 h_two 0 1 primary o [1] true
              Hs Ho Hbranch Hlo ltac:(simpl; lia))
    as (h' & Hadd & Hp & Hn).
  exists h'. split; [exact Hadd|].
  split; [by apply Hp | by apply Hn].
Defined.

Lemma add_twice_without_merge_cycles_witness :
  ∃ h1 h2, add 1 h_domains 0 1 false = Some (h1, 0) ∧
           add 2 h1 0 1 false = Some (h2, 0) ∧
           (_fallback <$> h2 !! 0) = Some (Some 0) ∧
           ∀ fuel, pgettext fuel h2 0 "menu" "Edit" = None.
Proof.
  destruct (add_twice_without_merge_cycles h_domains 0 1 primary
              (Translations_init (Some "extra")) 1 2
              eq_refl eq_refl ltac:(discriminate) eq_refl eq_refl
              ltac:(lia) ltac:(lia))
    as (h1 & h2 & s2 & Hadd1 & Hadd2 & Hs2 & Hfb & Hp & _).
  exists h1, h2. do 2 (split; [done|]).
  split; [by rewrite Hs2; cbn; rewrite Hfb|].
  intros fuel. by apply Hp.
Defined.

Lemma lookups_return_on_finite_chain_witness :
  is_Some (pgettext 3 h_chain 0 "menu" "Edit") ∧
  is_Some (npgettext 3 h_chain 0 "menu" "file" "files" 5).
Proof.
  assert (fallbacks h_chain 0 [0; 1; 2]) as Hch.
  { eapply fallbacks_next; [reflexivity..|].
    eapply fallbacks_next; [reflexivity..|].
    eapply fallbacks_last; reflexivity. }
  destruct (lookups_return_on_finite_chain h_chain 0 [0; 1; 2] 3 Hch
              ltac:(simpl; lia)) as [Hp Hn].
  split.
  - destruct (Hp "menu" "Edit") as (r & Hr & _). by exists r.
  - destruct (Hn "menu" "file" "files" 5%Z) as (r & Hr & _). by exists r.
Defined.

Lemma add_only_adds_witness :
  match add 0 h_merge 0 1 true with
  | Some (h', r) => r = 0 ∧ is_Some (h' !! 1) ∧ h' !! 2 = None
  | None => False
  end.
Proof.
  destruct (add 0 h_merge 0 1 true) as [[h' r]|] eqn:Hadd;
    [|vm_compute in Hadd; discriminate].
  destruct (add_only_adds 0 h_merge 0 1 true h' r Hadd) as (Hr & Hin & Hout).
  split; [exact Hr|]. split.
  - destruct (Hin 1 cat_B eq_refl) as (o' & Ho' & _). by exists o'.
  - by apply Hout.
Defined.

Lemma default_plural_two_forms_witness :
  npgettext 1 h_plural 0 "menu" "file" "files" 1 = Some "Datei" ∧
  npgettext 1 h_plural 0 "menu" "file" "files" 7 = Some "Dateien".
Proof.
  split.
  - apply (default_plural_two_forms 0 h_plural 0
             (set_catalog {[ KPlural menu_file 0 := "Datei";
                             KPlural menu_file 1 := "Dateien" ]}
                (Translations_init None))
             "menu" "file" "files" 1%Z "Datei" eq_refl eq_refl eq_refl).
  - apply (default_plural_two_forms 0 h_plural 0
             (set_catalog {[ KPlural menu_file 0 := "Datei";
                             KPlural menu_file 1 := "Dateien" ]}
                (Translations_init None))
             "menu" "file" "files" 7%Z "Dateien" eq_refl eq_refl eq_refl).
Defined.

Lemma deprecated_lookups_on_hit_witness :
  CatalogsMore.lnpgettext charsets "utf-8" tag_encode 3 h_chain 0
    "menu" "file" "files" 5
  = (replicate 3 "lnpgettext() is deprecated, use npgettext() instead",
     Some (inr "latin-1:Dateien")) ∧
  CatalogsMore.lpgettext charsets "utf-8" tag_encode 3 h_chain 0 "menu" "File"
  = (["lpgettext() is deprecated, use pgettext() instead"], Some "utf-8:Datei").
Proof.
  assert (fallbacks h_chain 0 ([0; 1] ++ 2 :: [])) as Hch.
  { eapply fallbacks_next; [reflexivity..|].
    eapply fallbacks_next; [reflexivity..|].
    eapply fallbacks_last; reflexivity. }
  destruct (deprecated_lookups_on_hit charsets "utf-8" tag_encode h_chain 0 [0; 1] 2 []
              (set_catalog {[ KMsg menu_File := "Datei";
                              KPlural menu_file 1 := "Dateien" ]}
                 (Translations_init (Some "base"))) 3 Hch eq_refl
              ltac:(simpl; lia)) as [Hn Hp].
  split.
  - apply (Hn "menu" "file" "files" 5%Z "Dateien"); [each_member | reflexivity].
  - apply (Hp "menu" "File" "Datei"); [each_member | reflexivity].
Defined.

Lemma deprecated_lookups_on_total_miss_witness :
  CatalogsMore.lnpgettext charsets "utf-8" tag_encode 3 h_chain 0
    "menu" "edit" "edits" 5
  = (replicate 3 "lnpgettext() is deprecated, use npgettext() instead",
     Some (inl "edits")) ∧
  CatalogsMore.lpgettext charsets "utf-8" tag_encode 3 h_chain 0 "menu" "Edit"
  = (["lpgettext() is deprecated, use pgettext() instead"], Some "utf-8:Edit").
Proof.
  assert (fallbacks h_chain 0 [0; 1; 2]) as Hch.
  { eapply fallbacks_next; [reflexivity..|].
    eapply fallbacks_next; [reflexivity..|].
    eapply fallbacks_last; reflexivity. }
  destruct (deprecated_lookups_on_total_miss charsets "utf-8" tag_encode h_chain 0
              [0; 1; 2] 3 Hch ltac:(simpl; lia)) as [Hn Hp].
  split.
  - apply (Hn "menu" "edit" "edits" 5%Z). each_member.
  - apply (Hp "menu" "Edit"). each_member.
Defined.

End CatalogsMoreFacts.

(** ** More on lazy proxies *)

Module LazyMoreFacts.
Import Lazy LazyMore LazyFacts.

Section MoreFacts.

Context {W V Args exn : Type}.
Variable isinstance_AttributeError : exn → bool.
Variable getattr : option V → string → W → (option V + exn) * W.

Abbreviation state := (@state W V Args exn).
Abbreviation value := (value isinstance_AttributeError).
Abbreviation __getattr__ := (__getattr__ isinstance_AttributeError getattr).
Abbreviation forward := (forward isinstance_AttributeError).
Abbreviation act := (act isinstance_AttributeError getattr).
Abbreviation perform := (perform isinstance_AttributeError getattr).

(** What one evaluation does to the slots and to the count. *)
Lemma value_effect (st : state) :
  _func (proxy (value st).2) = _func (proxy st) ∧
  _args (proxy (value st).2) = _args (proxy st) ∧
  (calls (value st).2 = calls st ∨ calls (value st).2 = S (calls st)) ∧
  (_attribute_error (proxy (value st).2) = _attribute_error (proxy st) ∨
   ∃ e w, _func (proxy st) (_args (proxy st)) w = (inr e, (world (value st).2)) ∧
          isinstance_AttributeError e = true ∧
          _attribute_error (proxy (value st).2) = Some e).
Proof.
  destruct (_value (proxy st)) as [v|] eqn:Hv.
  - rewrite (value_cached _ st v Hv). cbn. auto.
  - destruct (_func (proxy st) (_args (proxy st)) (world st)) as [[v|e] w'] eqn:Hf.
    + rewrite (value_returns _ st v w' Hv Hf). cbn.
      destruct (_is_cache_enabled (proxy st)); cbn; auto.
    + rewrite (value_raises _ st e w' Hv Hf). cbn.
      destruct (isinstance_AttributeError e) eqn:Hattr; cbn; [|by auto].
      do 3 (split; [by auto|]). right. by exists e, (world st).
Qed.

(** Every operation goes through one evaluation and leaves the proxy as
    the evaluation left it. *)
Lemma act_effect a (st : state) :
  (act a st).2 = st ∨
  (proxy (act a st).2 = proxy (value st).2 ∧ calls (act a st).2 = calls (value st).2).
Proof.
  destruct a as [|name|k]; cbn [LazyMore.act].
  - by right.
  - unfold Lazy.__getattr__.
    destruct (_attribute_error (proxy st)); [by left|]. right.
    by destruct (Lazy.value _ st) as [[v|e] st1].
  - unfold LazyMore.forward. right.
    by destruct (Lazy.value _ st) as [[v|e] st1].
Qed.

(** X14: once a value is realized the proxy is settled.  Whatever is done
    to it afterwards, reading [.value], looking attributes up, forwarding
    an operation (setting or deleting an attribute included), no slot of
    the proxy changes, the producer is not invoked again, and [.value]
    still returns the realized value. *)
Theorem realized_value_stays actions :
  ∀ (st : state) v,
    _value (proxy st) = Some v →
    proxy (perform actions st).2 = proxy st ∧
    calls (perform actions st).2 = calls st ∧
    (value (perform actions st).2).1 = inl (Some v).
Proof.
  induction actions as [|a actions IH]; intros st v Hv.
  - cbn. by rewrite (value_cached _ st v Hv).
  - cbn [LazyMore.perform snd].
    assert (proxy (act a st).2 = proxy st ∧ calls (act a st).2 = calls st) as [Hp Hc].
    { destruct (act_effect a st) as [->|[Hp Hc]]; [done|].
      rewrite Hp, Hc. by rewrite (value_cached _ st v Hv). }
    destruct (IH (act a st).2 v) as (IH1 & IH2 & IH3); [by rewrite Hp|].
    split; [congruence|]. split; [congruence|done].
Qed.

(** X15: an operation evaluates at most once: over any operations the
    count of invocations never goes down and grows by at most one per
    operation. *)
Theorem one_invocation_per_operation actions :
  ∀ st : state,
    (calls st ≤ calls (perform actions st).2)%nat ∧
    (calls (perform actions st).2 ≤ calls st + length actions)%nat.
Proof.
  induction actions as [|a actions IH]; intros st; [cbn; lia|].
  cbn [LazyMore.perform snd length].
  assert (calls (act a st).2 = calls st ∨ calls (act a st).2 = S (calls st)) as Hc.
  { destruct (act_effect a st) as [->|[_ Hc]]; [by left|].
    rewrite Hc. by destruct (value_effect st) as (_ & _ & Hcalls & _). }
  destruct (IH (act a st).2) as [IH1 IH2]. lia.
Qed.

(** X16: a copy is not evaluated.  The proxy that [__copy__] (and
    [__deepcopy__], over the copied producer and arguments) returns has
    the producer, the arguments and the cache setting of the original, an
    empty value slot and no remembered error, whatever the original has
    realized or remembered: its first evaluation invokes the producer. *)
Theorem copy_is_unevaluated (p : @LazyProxy W V Args exn) w n
    (deepcopy_func : (Args → W → (option V + exn) * W) → Args → W → (option V + exn) * W)
    (deepcopy_args : Args → Args) :
  (_func (__copy__ p) = _func p ∧ _args (__copy__ p) = _args p ∧
   _value (__copy__ p) = None ∧ _attribute_error (__copy__ p) = None ∧
   _is_cache_enabled (__copy__ p) = _is_cache_enabled p ∧
   (value (mkState (__copy__ p) w n)).1 = (_func p (_args p) w).1 ∧
   calls (value (mkState (__copy__ p) w n)).2 = S n) ∧
  (_func (__deepcopy__ deepcopy_func deepcopy_args p) = deepcopy_func (_func p) ∧
   _args (__deepcopy__ deepcopy_func deepcopy_args p) = deepcopy_args (_args p) ∧
   _value (__deepcopy__ deepcopy_func deepcopy_args p) = None ∧
   _attribute_error (__deepcopy__ deepcopy_func deepcopy_args p) = None ∧
   _is_cache_enabled (__deepcopy__ deepcopy_func deepcopy_args p)
   = _is_cache_enabled p ∧
   (value (mkState (__deepcopy__ deepcopy_func deepcopy_args p) w n)).1
   = (deepcopy_func (_func p) (deepcopy_args (_args p)) w).1 ∧
   calls (value (mkState (__deepcopy__ deepcopy_func deepcopy_args p) w n)).2 = S n).
Proof.
  split.
  - do 5 (split; [reflexivity|]).
    destruct (_func p (_args p) w) as [[v|e] w'] eqn:Hf.
    + rewrite (value_returns _ (mkState (__copy__ p) w n) v w' eq_refl Hf). by cbn.
    + rewrite (value_raises _ (mkState (__copy__ p) w n) e w' eq_refl Hf). by cbn.
  - do 5 (split; [reflexivity|]).
    destruct (deepcopy_func (_func p) (deepcopy_args (_args p)) w) as [[v|e] w'] eqn:Hf.
    + rewrite (value_returns _ (mkState (__deepcopy__ _ _ p) w n) v w' eq_refl Hf).
      by cbn.
    + rewrite (value_raises _ (mkState (__deepcopy__ _ _ p) w n) e w' eq_refl Hf).
      by cbn.
Qed.

(** X17: only a failure of the producer is remembered.  With a producer
    that never raises a missing-attribute error, no operation ever fills
    [_attribute_error], also when the attribute lookup on the realized
    value, or a forwarded operation, itself raises such an error. *)
Theorem only_producer_failures_are_remembered actions :
  ∀ st : state,
    _attribute_error (proxy st) = None →
    (∀ w e, (_func (proxy st) (_args (proxy st)) w).1 = inr e →
            isinstance_AttributeError e = false) →
    _attribute_error (proxy (perform actions st).2) = None.
Proof.
  induction actions as [|a actions IH]; intros st Hnone Hprod; [done|].
  cbn [LazyMore.perform snd].
  destruct (value_effect st) as (Hf & Ha & _ & Herr).
  assert (_attribute_error (proxy (value st).2) = None) as Hv.
  { destruct Herr as [->|(e & w & Hraise & Hattr & _)]; [done|].
    rewrite (Hprod w e) in Hattr; [done | by rewrite Hraise]. }
  apply IH.
  - destruct (act_effect a st) as [->|[-> _]]; done.
  - destruct (act_effect a st) as [->|[-> _]]; [done|].
    rewrite Hf, Ha. apply Hprod.
Qed.

End MoreFacts.

(** *** The statements at concrete proxies *)

Import LazyExamples MoreExamples.

Lemma realized_value_stays_witness :
  calls (perform is_AttributeError getattr_int
           [Lookup "imag"; Forward successor; Access; Lookup "real"]
           (value is_AttributeError (fresh ticket () true 0)).2).2 = 1 ∧
  (value is_AttributeError
     (perform is_AttributeError getattr_int
        [Lookup "imag"; Forward successor; Access; Lookup "real"]
        (value is_AttributeError (fresh ticket () true 0)).2).2).1
  = inl (Some 0).
Proof.
  destruct (realized_value_stays is_AttributeError getattr_int
              [Lookup "imag"; Forward successor; Access; Lookup "real"]
              (value is_AttributeError (fresh ticket () true 0)).2 0 eq_refl)
    as (_ & Hcalls & Hval).
  split; [exact Hcalls | exact Hval].
Defined.

Lemma only_producer_failures_are_remembered_witness :
  (perform is_AttributeError getattr_int [Lookup "imag"; Lookup "real"]
     (fresh ticket () true 0)).1
  = [inr (AttributeError "imag"); inl (Some 0)] ∧
  _attribute_error
    (proxy (perform is_AttributeError getattr_int [Lookup "imag"; Lookup "real"]
              (fresh ticket () true 0)).2) = None.
Proof.
  split; [reflexivity|].
  apply (only_producer_failures_are_remembered is_AttributeError getattr_int
           [Lookup "imag"; Lookup "real"] (fresh ticket () true 0) eq_refl).
  intros w e He. discriminate He.
Defined.

End LazyMoreFacts.
